(** * espfit: reweighting sampler (espfit/utils/sampler/reweight.py)

    A shallow embedding of [SetupSamplerReweight]: the effective sample
    size estimator [get_effective_sample_size] and the loss aggregation
    [_compute_loss_per_system] / [_compute_weighted_observable].

    Numbers.  The Python code computes with IEEE floats (numpy float64 and
    torch tensors).  The embedding computes with the real numbers of the
    Standard Library: [exp] is the real exponential, sums and quotients are
    exact.  Python values that have no real counterpart are modelled
    explicitly: an exception is [Raise e]; the NaN of a numpy division 0/0
    is [NaN]; the NaN that [torch.mean] yields on an empty tensor is
    [TNaN]; a division of Python floats by zero is [ZeroDivisionError].

    Collaborators.  Trajectory storage ([mdtraj.load]), the constant
    [KB_T_KCALPERMOL] of [espfit.utils.units], the experiment file reader
    and [RNASystem.compute_jcouplings] live outside this file of the
    repository; they are parameters of the development. *)

From Stdlib Require Import Reals Lra Psatz.
From stdpp Require Import gmap strings list fin_maps.

Local Open Scope R_scope.

(** ** Exceptions and results *)

Inductive exn : Type :=
  | AssertionError
  | UnboundLocalError
  | KeyError
  | IndexError
  | ValueError
  | TypeError
  | ZeroDivisionError.

Inductive result (A : Type) : Type :=
  | Ok (a : A)
  | Raise (e : exn).
Arguments Ok {A} a.
Arguments Raise {A} e.

(** Exceptions propagate: [result] is a monad, with stdpp's [x ← m; k]. *)
#[global] Instance result_ret : MRet result := fun A a => Ok a.
#[global] Instance result_bind : MBind result := fun A B k m =>
  match m with
  | Ok a => k a
  | Raise e => Raise e
  end.

(** ** numpy on sequences of reals *)

(** [np.sum] *)
Definition np_sum (l : list R) : R := foldr Rplus 0 l.

(** [np.exp], elementwise *)
Definition np_exp (l : list R) : list R := map exp l.

(** [a / s] for an array [a] and a scalar [s] *)
Definition np_div (l : list R) (s : R) : list R := map (fun x => x / s) l.

(** [a ** 2], elementwise *)
Definition np_sqr (l : list R) : list R := map (fun x => x ^ 2) l.

(** A numpy float64 scalar: a number or NaN. *)
Inductive npfloat : Type :=
  | Num (x : R)
  | NaN.

(** [a / b] on numpy scalars: a zero divisor gives NaN with a warning, not
    an exception.  (For a dividend other than 0 numpy gives an infinity;
    the quotients of this file divide by 0 only when the dividend is 0 or
    NaN, see [reweight_neff_nan].) *)
Definition np_true_divide (a b : npfloat) : npfloat :=
  match a, b with
  | Num x, Num y => if Req_dec_T y 0 then NaN else Num (x / y)
  | _, _ => NaN
  end.

(** [y < m] on numpy scalars: false when either side is NaN. *)
Definition np_less (y m : npfloat) : bool :=
  match y, m with
  | Num a, Num b => if Rlt_dec a b then true else false
  | _, _ => false
  end.

(** [min(l)] of a Python list: [ValueError] on the empty list; otherwise
    the first item, replaced by each later item that compares less. *)
Definition py_min (l : list npfloat) : result npfloat :=
  match l with
  | [] => Raise ValueError
  | x :: xs => Ok (foldl (fun m y => if np_less y m then y else m) x xs)
  end.

(** ** Python dicts with string keys

    The items in insertion order.  [d[k] = v] replaces the value of an
    existing key in place and appends a new key at the end. *)
Fixpoint dict_set {V : Type} (k : string) (v : V) (d : list (string * V))
    : list (string * V) :=
  match d with
  | [] => [(k, v)]
  | (k', v') :: d' =>
      if decide (k' = k) then (k, v) :: d' else (k', v') :: dict_set k v d'
  end.

(** [d.get(k)]; [d[k]] raises [KeyError] where this is [None]. *)
Fixpoint dict_get {V : Type} (k : string) (d : list (string * V)) : option V :=
  match d with
  | [] => None
  | (k', v') :: d' => if decide (k' = k) then Some v' else dict_get k d'
  end.

(** A scalar [torch] tensor: a number, or the NaN of an empty mean. *)
Inductive Tensor : Type :=
  | TVal (x : R)
  | TNaN.

(** [torch.mean(torch.tensor(l))]: NaN, not an exception, on [[]]. *)
Definition torch_mean (l : list R) : Tensor :=
  match l with
  | [] => TNaN
  | _ :: _ => TVal (np_sum l / INR (length l))
  end.

(** ** Data model *)

(** One measurement of [experiment.yml]:
    [{'name': .., 'value': .., 'operator': .., 'error': ..}]; a YAML null
    is [None]. *)
Record Measurement : Type := {
  name : string;
  value : option R;
  operator : option string;
  error : option R
}.

(** [d['experiment_1']['measurement']]: residue -> key -> measurement.
    Both dicts are iterated, so both keep their order. *)
Definition ExperimentRecord : Type := list (string * list (string * Measurement)).

(** One predicted J-coupling: [{'avg': .., 'std': ..}]. *)
Record Prediction : Type := {
  avg : R;
  std : R
}.

(** What [compute_jcouplings] returns: residue -> key -> prediction.  The
    outer dict is read by position ([list(pred.values())[i]]), the inner
    one by key. *)
Definition PredictedObservable : Type := list (string * gmap string Prediction).

Section Reweight.

(** Atomic positions of one frame ([traj.openmm_positions(i)]). *)
Context {positions : Type}.

(** An [mdtraj] trajectory: [n_frames] and [openmm_positions(i)]. *)
Record Trajectory : Type := {
  n_frames : nat;
  openmm_positions : nat -> positions
}.

(** A sampler.  [potential_energy x] is the potential energy, in kcal/mol,
    that [simulation.context.getState(getEnergy=True).getPotentialEnergy()]
    reports after [simulation.context.setPositions(x)]. *)
Record Sampler : Type := {
  target_name : string;
  target_class : string;
  atomSubset : string;
  temperature : R;
  output_directory_path : string;
  potential_energy : positions -> R
}.

(** An entry of [self.weights]: [{'neff': neff, 'weights': w_i}]; the
    field [w_i] is the value under the key ['weights']. *)
Record WeightRecord : Type := {
  neff : npfloat;
  w_i : list R
}.

(** [SetupSamplerReweight]: [self.samplers] is [None] until the caller
    configures it; [self.weights] is a dict keyed by target name. *)
Record SetupSamplerReweight : Type := {
  samplers : option (list Sampler);
  weights : list (string * WeightRecord)
}.

(** [KB_T_KCALPERMOL] of [espfit.utils.units]. *)
Variable KB_T_KCALPERMOL : R.

(** [mdtraj.load(path + '/traj.nc', top=path + '/solvated.pdb')], by the
    output directory [path]. *)
Variable mdtraj_load : string -> Trajectory.

(** ** get_effective_sample_size *)

(** Lines 86-98: the loop over [range(traj.n_frames)] appending to
    [log_w]. *)
Definition frame_log_w (sampler temporary_sampler : Sampler)
    (traj : Trajectory) (beta : R) (i : nat) : R :=
  let potential_energy_0 := potential_energy sampler (openmm_positions traj i) in
  let reduced_potential_energy :=
    potential_energy temporary_sampler (openmm_positions traj i) in
  let delta := reduced_potential_energy - potential_energy_0 in
  -1 * beta * delta.

Definition compute_log_w (sampler temporary_sampler : Sampler)
    (traj : Trajectory) (beta : R) : list R :=
  foldl (fun log_w i => log_w ++ [frame_log_w sampler temporary_sampler traj beta i])
        [] (seq 0 (n_frames traj)).

(** Lines 78-111: the record one iteration computes, once the
    temperatures have been found equal and [beta] has been computed. *)
Definition reweight (sampler temporary_sampler : Sampler) : WeightRecord :=
  let temp0 := temperature sampler in
  let beta := 1 / (KB_T_KCALPERMOL * temp0) in
  let traj := mdtraj_load (output_directory_path sampler) in
  let log_w := compute_log_w sampler temporary_sampler traj beta in
  let w := np_div (np_exp log_w) (np_sum (np_exp log_w)) in
  let n :=
    np_true_divide
      (np_true_divide (Num (np_sum w ^ 2)) (Num (np_sum (np_sqr w))))
      (Num (INR (length w))) in
  {| neff := n; w_i := w |}.

(** [[self.weights[key]['neff'] for key in self.weights.keys()]] *)
Definition all_neffs (w : list (string * WeightRecord)) : list npfloat :=
  map (fun kv => neff kv.2) w.

(** Lines 71-113: the loop over [zip(self.samplers, temporary_samplers)].
    It threads the dict [self.weights] and the local [neffs], which is
    unbound ([None]) until the first iteration completes.  A failed
    assertion leaves the dict as the earlier iterations made it, and so
    does the division of line 78 when [KB_T_KCALPERMOL * temp0] is 0. *)
Fixpoint ess_loop (w : list (string * WeightRecord)) (neffs : option (list npfloat))
    (pairs : list (Sampler * Sampler))
    : list (string * WeightRecord) * result (option (list npfloat)) :=
  match pairs with
  | [] => (w, Ok neffs)
  | (sampler, temporary_sampler) :: rest =>
      let temp0 := temperature sampler in
      let temp1 := temperature temporary_sampler in
      if Req_dec_T temp0 temp1 then
        if Req_dec_T (KB_T_KCALPERMOL * temp0) 0 then (w, Raise ZeroDivisionError)
        else
          let w' := dict_set (target_name sampler)
                             (reweight sampler temporary_sampler) w in
          ess_loop w' (Some (all_neffs w')) rest
      else (w, Raise AssertionError)
  end.

(** Line 115: [return min(neffs)]. *)
Definition return_min (neffs : option (list npfloat)) : result npfloat :=
  match neffs with
  | None => Raise UnboundLocalError
  | Some l => py_min l
  end.

Definition get_effective_sample_size (self : SetupSamplerReweight)
    (temporary_samplers : list Sampler) : SetupSamplerReweight * result npfloat :=
  match samplers self with
  | None => (self, Ok (Num (-1)))
  | Some ss =>
      let '(w, r) := ess_loop (weights self) None (zip ss temporary_samplers) in
      ({| samplers := samplers self; weights := w |}, r ≫= return_min)
  end.

(** ** compute_loss *)

(** [d['experiment_1']['measurement']] of the YAML file at a path below the
    [espfit] package. *)
Variable experiment_yml : string -> ExperimentRecord.

(** [RNASystem(atomSubset).load_traj(dir); compute_jcouplings(weights)]. *)
Variable compute_jcouplings :
  string -> string -> option (list R) -> PredictedObservable.

Definition _get_experiment_data (target_class target_name : string)
    : ExperimentRecord :=
  experiment_yml
    ("data/target/" +:+ target_class +:+ "/" +:+ target_name +:+ "/experiment.yml").

(** Lines 234-237.  [self.weights.keys()] is true when the dict has a key
    at all; [self.weights[target_name]] raises [KeyError] on a missing
    key.  The export of [pred] to [pred.yaml] (lines 241-242) does not
    change the value returned and is left out. *)
Definition _compute_weighted_observable (self : SetupSamplerReweight)
    (atomSubset target_name output_directory_path : string)
    : result PredictedObservable :=
  match weights self with
  | _ :: _ =>
      match dict_get target_name (weights self) with
      | Some record =>
          Ok (compute_jcouplings atomSubset output_directory_path (Some (w_i record)))
      | None => Raise KeyError
      end
  | [] => Ok (compute_jcouplings atomSubset output_directory_path None)
  end.

(** The literal list of line 158. *)
Definition uncertain_operators : list (option string) :=
  [Some ">"; Some "<"; Some ">="; Some "<="; Some "~"]%string.

(** [list(pred.values())[resi_index][key]] *)
Definition pred_at (pred : PredictedObservable) (resi_index : nat) (key : string)
    : result Prediction :=
  match pred.*2 !! resi_index with
  | None => Raise IndexError
  | Some d =>
      match d !! key with
      | None => Raise KeyError
      | Some p => Ok p
      end
  end.

(** Lines 156-174: the loop over [exp_dict.items()], appending to [loss].
    The measurement values are Python floats: line 174 raises
    [ZeroDivisionError] when [dominator] is 0.  (Were the predictions numpy
    scalars the quotient would be an infinity or NaN instead; either way
    it is no real number.) *)
Fixpoint items_loop (pred : PredictedObservable) (resi_index : nat)
    (loss : list R) (items : list (string * Measurement)) : result (list R) :=
  match items with
  | [] => Ok loss
  | (key, v) :: rest =>
      if bool_decide (operator v ∈ uncertain_operators) then
        items_loop pred resi_index loss rest
      else
        match value v with
        | None => items_loop pred resi_index loss rest
        | Some exp_value =>
            let exp_error :=
              match error v with
              | None => 0.5
              | Some e => e
              end in
            p ← pred_at pred resi_index key;
            let pred_value := avg p in
            let pred_error := std p in
            let numerator := (pred_value - exp_value) ^ 2 in
            let dominator := exp_error ^ 2 + pred_error ^ 2 in
            if Req_dec_T dominator 0 then Raise ZeroDivisionError
            else items_loop pred resi_index (loss ++ [numerator / dominator]) rest
        end
  end.

(** Lines 155-174: the loop over [enumerate(exp.values())]. *)
Fixpoint resi_loop (pred : PredictedObservable) (resi_index : nat)
    (loss : list R) (exp_values : list (list (string * Measurement)))
    : result (list R) :=
  match exp_values with
  | [] => Ok loss
  | exp_dict :: rest =>
      loss' ← items_loop pred resi_index loss exp_dict;
      resi_loop pred (S resi_index) loss' rest
  end.

(** Lines 154-179. *)
Definition loss_of (exp : ExperimentRecord) (pred : PredictedObservable)
    : result Tensor :=
  loss ← resi_loop pred 0 [] exp.*2;
  Ok (torch_mean loss).

Definition _compute_loss_per_system (self : SetupSamplerReweight)
    (sampler : Sampler) : result Tensor :=
  let exp := _get_experiment_data (target_class sampler) (target_name sampler) in
  pred ← _compute_weighted_observable self (atomSubset sampler)
            (target_name sampler) (output_directory_path sampler);
  loss_of exp pred.

(** Iterating [self.samplers] while it is [None] is a [TypeError]. *)
Definition compute_loss (self : SetupSamplerReweight) : result (list Tensor) :=
  match samplers self with
  | None => Raise TypeError
  | Some ss => mapM (_compute_loss_per_system self) ss
  end.

End Reweight.

(** * The estimator and the loss as the specification words them *)

(** [big_sum f n] is the sum of [f j] over the frames [j < n]. *)
Fixpoint big_sum (f : nat -> R) (n : nat) : R :=
  match n with
  | O => 0
  | S k => big_sum f k + f k
  end.

Section EstimatorSpec.

Context {positions : Type}.
Variable KB_T_KCALPERMOL : R.
Variables reference candidate : @Sampler positions.
Variable trajectory : @Trajectory positions.

(** beta = 1/(k_B T), from the shared temperature. *)
Definition spec_beta : R := 1 / (KB_T_KCALPERMOL * temperature reference).

(** Delta U_i = U1(x_i) - U0(x_i), candidate minus reference at the same
    positions. *)
Definition spec_delta_U (i : nat) : R :=
  potential_energy candidate (openmm_positions trajectory i)
  - potential_energy reference (openmm_positions trajectory i).

(** logw_i = - beta Delta U_i *)
Definition spec_logw (i : nat) : R := - spec_beta * spec_delta_U i.

(** w_i = exp(logw_i) / sum_j exp(logw_j) *)
Definition spec_weight (i : nat) : R :=
  exp (spec_logw i) / big_sum (fun j => exp (spec_logw j)) (n_frames trajectory).


End EstimatorSpec.

Section PassSpec.

Context {positions : Type}.
Variable KB_T_KCALPERMOL : R.
Variable mdtraj_load : string -> @Trajectory positions.

(** The iteration on a pair of the [zip] runs to its end: the assertion
    of line 77 passes and the divisor of line 78 is not 0. *)
Definition completes (pair : @Sampler positions * @Sampler positions) : Prop :=
  temperature pair.1 = temperature pair.2
  /\ KB_T_KCALPERMOL * temperature pair.1 <> 0.

(** [self.weights] after the records of [pairs] have been written over
    [w], in order, each under the target name of its reference sampler. *)
Definition stored (w : list (string * WeightRecord))
    (pairs : list (@Sampler positions * @Sampler positions))
    : list (string * WeightRecord) :=
  foldl (fun w pair =>
           dict_set (target_name pair.1)
                    (reweight KB_T_KCALPERMOL mdtraj_load pair.1 pair.2) w)
        w pairs.

End PassSpec.




(** A measurement is skipped when its value is missing or its operator
    is one of > < >= <= ~. *)
Definition skipped (m : Measurement) : Prop :=
  value m = None
  \/ operator m ∈ [Some ">"; Some "<"; Some ">="; Some "<="; Some "~"]%string.

#[global] Instance skipped_dec (m : Measurement) : Decision (skipped m).
Proof.
  unfold skipped. destruct (value m) as [v|].
  - destruct (decide (operator m ∈
        [Some ">"; Some "<"; Some ">="; Some "<="; Some "~"]%string)) as [Hin|Hout].
    + left. by right.
    + right. by intros [?|?].
  - left. by left.
Defined.

(** error = the provided error, or 0.5 if missing *)
Definition error_or_default (m : Measurement) : R := default 0.5 (error m).

(** The measurement under [kv], at structural-unit position [i], as the
    loss uses it: position, key, value, error; [None] when skipped. *)
Definition use_of (i : nat) (kv : string * Measurement)
    : option (nat * string * R * R) :=
  if decide (skipped kv.2) then None
  else v ← value kv.2; Some (i, kv.1, v, error_or_default kv.2).

(** The used measurements of a record, in its iteration order. *)
Definition used_measurements (exp : ExperimentRecord) : list (nat * string * R * R) :=
  concat (imap (fun i exp_dict => omap (use_of i) exp_dict) exp.*2).

(** [x] is the contribution of the used measurement [u]:
    (pred_avg - exp_value)^2 / (exp_error^2 + pred_std^2), with the
    prediction found at the same position and key and a divisor that is
    not 0. *)
Definition contributes (pred : PredictedObservable)
    (u : nat * string * R * R) (x : R) : Prop :=
  let '(i, key, exp_value, exp_error) := u in
  exists p, pred_at pred i key = Ok p
            /\ exp_error ^ 2 + std p ^ 2 <> 0
            /\ x = (avg p - exp_value) ^ 2 / (exp_error ^ 2 + std p ^ 2).

(** The same as a computation, which raises where the prediction is
    missing or the divisor is 0. *)
Definition contribution (pred : PredictedObservable)
    (u : nat * string * R * R) : result R :=
  let '(i, key, exp_value, exp_error) := u in
  p ← pred_at pred i key;
  if Req_dec_T (exp_error ^ 2 + std p ^ 2) 0 then Raise ZeroDivisionError
  else Ok ((avg p - exp_value) ^ 2 / (exp_error ^ 2 + std p ^ 2)).

(** The record of [experiment.yml] with every missing error written out
    as the default of line 165. *)
Definition with_default_error (exp : ExperimentRecord) : ExperimentRecord :=
  map (fun unit =>
         (unit.1,
          map (fun kv =>
                 (kv.1,
                  {| name := name kv.2;
                     value := value kv.2;
                     operator := operator kv.2;
                     error := Some (error_or_default kv.2) |}))
              unit.2))
      exp.

(** The keys of a dict, in order. *)
Definition dict_keys {V : Type} (d : list (string * V)) : list string := d.*1.

(** * Concrete sessions *)

(** Frames are numbered; the positions of frame [i] are [i] itself. *)
Definition ex_traj (n : nat) : @Trajectory nat :=
  {| n_frames := n; openmm_positions := fun i => i |}.

Definition ex_sampler (target : string) (T : R) (U : nat -> R) : @Sampler nat :=
  {| target_name := target;
     target_class := "nucleoside";
     atomSubset := "heavy";
     temperature := T;
     output_directory_path := target;
     potential_energy := U |}.

(** Reference and candidate samplers of two targets. *)
Definition ex_A : @Sampler nat := ex_sampler "A" 300 (fun _ => 0).
Definition ex_A' : @Sampler nat := ex_sampler "A" 300 (fun i => INR i).
Definition ex_A_hot : @Sampler nat := ex_sampler "A" 310 (fun i => INR i).
Definition ex_B : @Sampler nat := ex_sampler "B" 300 (fun _ => 0).

(** A record that an earlier pass left for target B. *)
Definition ex_record_B : WeightRecord :=
  {| neff := Num (25 / 41); w_i := [0.9; 0.1] |}.

(** One system, two measurements: 1.0 (error 0.2) and 2.0 (no error),
    predicted 0.8 (std 0.1) and 2.0 (std 0.0). *)
Definition ex_exp : ExperimentRecord :=
  [("resi_1"%string,
    [("1H5P"%string,
      {| name := "beta_1"; value := Some 1; operator := None; error := Some 0.2 |});
     ("2H5P"%string,
      {| name := "beta_2"; value := Some 2; operator := None; error := None |})])].

Definition ex_pred : PredictedObservable :=
  [("resi_1"%string,
    {[ "1H5P"%string := {| avg := 0.8; std := 0.1 |};
       "2H5P"%string := {| avg := 2; std := 0 |} ]})].

(** One system whose measurements are all unusable. *)
Definition ex_exp_skipped : ExperimentRecord :=
  [("resi_1"%string,
    [("1H5P"%string,
      {| name := "beta_1"; value := None; operator := None; error := None |});
     ("2H5P"%string,
      {| name := "beta_2"; value := Some 4; operator := Some ">"%string;
         error := Some 0.2 |})])].

(** Candidates whose energies differ from the reference by a constant on
    every frame, and the candidate [ex_A'] shifted by 7 kcal/mol. *)
Definition ex_A_const : @Sampler nat := ex_sampler "A" 300 (fun _ => 3).

(** Storage where the trajectory of target A has no frame. *)
Definition ex_load_A_empty (path : string) : @Trajectory nat :=
  if decide (path = "A"%string) then ex_traj 0 else ex_traj 2.

(** The prediction [ex_pred] with a key and a structural unit more. *)
Definition ex_pred_more : PredictedObservable :=
  [("resi_1"%string,
    {[ "1H5P"%string := {| avg := 0.8; std := 0.1 |};
       "2H5P"%string := {| avg := 2; std := 0 |};
       "H1H2"%string := {| avg := 5; std := 1 |} ]});
   ("resi_2"%string, {[ "1H5P"%string := {| avg := 7; std := 1 |} ]})].

(** The record [ex_exp] with its two measurements in the other order. *)
Definition ex_exp_swapped : ExperimentRecord :=
  [("resi_1"%string,
    [("2H5P"%string,
      {| name := "beta_2"; value := Some 2; operator := None; error := None |});
     ("1H5P"%string,
      {| name := "beta_1"; value := Some 1; operator := None; error := Some 0.2 |})])].

(** * Properties *)

(** ** Sums of reals *)

Lemma np_sum_app (l1 l2 : list R) : np_sum (l1 ++ l2) = np_sum l1 + np_sum l2.
Proof.
  induction l1 as [|x l1 IH]; simpl.
  - lra.
  - rewrite IH. lra.
Qed.








Lemma big_sum_seq (f : nat -> R) (n : nat) :
  np_sum (map f (seq 0 n)) = big_sum f n.
Proof.
  induction n as [|n IH]; [reflexivity|].
  rewrite seq_S, map_app, np_sum_app, IH. simpl. lra.
Qed.

Lemma foldl_snoc {A B : Type} (f : A -> B) (l : list A) (acc : list B) :
  foldl (fun acc i => acc ++ [f i]) acc l = acc ++ map f l.
Proof.
  revert acc. induction l as [|x l IH]; intros acc; simpl.
  - by rewrite app_nil_r.
  - by rewrite IH, <- app_assoc.
Qed.

(** ** numpy division and Python's [min] *)


Lemma np_true_divide_zero (a : npfloat) : np_true_divide a (Num 0) = NaN.
Proof.
  destruct a as [x|]; [|done]. unfold np_true_divide.
  by destruct (Req_dec_T 0 0).
Qed.



Lemma py_min_nonempty (l : list npfloat) : l <> [] -> exists v, py_min l = Ok v.
Proof. destruct l as [|x xs]; [done|]. intros _. cbn. eauto. Qed.

(** ** Dict updates *)

Section Dict.

Context {V : Type}.
Implicit Types (d : list (string * V)) (k : string) (v : V).

Lemma dict_get_set_eq d k v : dict_get k (dict_set k v d) = Some v.
Proof.
  induction d as [|[k' v'] d IH]; cbn.
  - by rewrite decide_True.
  - destruct (decide (k' = k)) as [->|Hne]; cbn.
    + by rewrite decide_True.
    + by rewrite decide_False.
Qed.

Lemma dict_get_set_ne d k k' v :
  k <> k' -> dict_get k' (dict_set k v d) = dict_get k' d.
Proof.
  intros Hne. induction d as [|[k0 v0] d IH]; cbn.
  - by rewrite decide_False.
  - destruct (decide (k0 = k)) as [->|Hne0]; cbn.
    + by rewrite !decide_False.
    + by rewrite IH.
Qed.

Lemma dict_set_nonempty d k v : dict_set k v d <> [].
Proof. destruct d as [|[k' v'] d]; cbn; [done|]. by destruct (decide (k' = k)). Qed.

Lemma elem_of_dict_set_new d k v : (k, v) ∈ dict_set k v d.
Proof.
  induction d as [|[k' v'] d IH]; cbn; [by left|].
  destruct (decide (k' = k)); [by left | by right].
Qed.




End Dict.

(** ** One iteration of the estimator *)

Section Estimator.

Context {positions : Type}.
Variable KB_T_KCALPERMOL : R.
Variable mdtraj_load : string -> @Trajectory positions.

Local Abbreviation reweight := (reweight KB_T_KCALPERMOL mdtraj_load).
Local Abbreviation ess_loop := (ess_loop KB_T_KCALPERMOL mdtraj_load).
Local Abbreviation get_effective_sample_size :=
  (get_effective_sample_size KB_T_KCALPERMOL mdtraj_load).
Local Abbreviation stored := (stored KB_T_KCALPERMOL mdtraj_load).
Local Abbreviation completes := (completes KB_T_KCALPERMOL).

Implicit Types (sampler temporary_sampler s t : @Sampler positions).
Implicit Types (w : list (string * WeightRecord)).

Lemma compute_log_w_map s t traj beta :
  compute_log_w s t traj beta = map (frame_log_w s t traj beta) (seq 0 (n_frames traj)).
Proof. unfold compute_log_w. by rewrite foldl_snoc. Qed.

Lemma frame_log_w_spec s t traj i :
  frame_log_w s t traj (1 / (KB_T_KCALPERMOL * temperature s)) i
  = spec_logw KB_T_KCALPERMOL s t traj i.
Proof. unfold frame_log_w, spec_logw, spec_beta, spec_delta_U. lra. Qed.

(** The weights of one iteration, frame by frame. *)
Lemma reweight_weights s t :
  let traj := mdtraj_load (output_directory_path s) in
  w_i (reweight s t)
  = map (spec_weight KB_T_KCALPERMOL s t traj) (seq 0 (n_frames traj)).
Proof.
  intros traj. unfold reweight. cbn [w_i]. fold traj.
  rewrite compute_log_w_map.
  rewrite (map_ext _ _ (frame_log_w_spec s t traj)).
  unfold np_div, np_exp. rewrite !map_map, big_sum_seq.
  reflexivity.
Qed.

Lemma reweight_length s t :
  length (w_i (reweight s t)) = n_frames (mdtraj_load (output_directory_path s)).
Proof. by rewrite reweight_weights, length_map, length_seq. Qed.

Lemma reweight_neff_eq s t :
  neff (reweight s t)
  = np_true_divide
      (np_true_divide (Num (np_sum (w_i (reweight s t)) ^ 2))
                      (Num (np_sum (np_sqr (w_i (reweight s t))))))
      (Num (INR (length (w_i (reweight s t))))).
Proof. reflexivity. Qed.





(** Without a frame the ESS is the NaN of 0/0. *)
Lemma reweight_neff_nan s t :
  n_frames (mdtraj_load (output_directory_path s)) = 0%nat ->
  w_i (reweight s t) = [] /\ neff (reweight s t) = NaN.
Proof.
  intros HN. pose proof (reweight_length s t) as Hlen. rewrite HN in Hlen.
  assert (w_i (reweight s t) = []) as Hw by (by apply nil_length_inv).
  split; [done|]. rewrite reweight_neff_eq, Hw. cbn [length INR].
  apply np_true_divide_zero.
Qed.



(** ** The loop over the zipped samplers *)

Lemma stored_cons w pairs s t :
  stored w ((s, t) :: pairs) = stored (dict_set (target_name s) (reweight s t) w) pairs.
Proof. reflexivity. Qed.

Lemma stored_app w p1 p2 : stored w (p1 ++ p2) = stored (stored w p1) p2.
Proof. apply foldl_app. Qed.

Lemma stored_snoc w pairs s t :
  stored w (pairs ++ [(s, t)]) = dict_set (target_name s) (reweight s t) (stored w pairs).
Proof. by rewrite stored_app. Qed.

Lemma stored_get_other w pairs key :
  (forall pair, pair ∈ pairs -> target_name pair.1 <> key) ->
  dict_get key (stored w pairs) = dict_get key w.
Proof.
  revert w. induction pairs as [|[s t] pairs IH]; intros w Hne; [done|].
  rewrite stored_cons, IH.
  - apply dict_get_set_ne. apply (Hne (s, t)). by left.
  - intros pair Hin. apply Hne. by right.
Qed.




Lemma stored_is_Some w pairs s t :
  (s, t) ∈ pairs -> is_Some (dict_get (target_name s) (stored w pairs)).
Proof.
  induction pairs as [|[s' t'] pairs IH] using rev_ind; intros Hin.
  { by apply elem_of_nil in Hin. }
  rewrite stored_snoc.
  destruct (decide (target_name s' = target_name s)) as [Heq|Hne].
  - rewrite <- Heq, dict_get_set_eq. eauto.
  - rewrite dict_get_set_ne by done. apply IH.
    apply elem_of_app in Hin as [Hin|Hin]; [done|].
    apply list_elem_of_singleton in Hin. congruence.
Qed.

Lemma stored_nonempty w pairs : pairs <> [] -> stored w pairs <> [].
Proof.
  destruct pairs as [|[s t] pairs _] using rev_ind; [done|]. intros _.
  rewrite stored_snoc. apply dict_set_nonempty.
Qed.


(** Every iteration completes: the loop writes all records and leaves
    [neffs] bound to the ESS values of the whole dict, unless there was
    no pair at all. *)
Lemma ess_loop_match pairs w neffs :
  Forall completes pairs ->
  ess_loop w neffs pairs
  = (stored w pairs,
     Ok (match pairs with
         | [] => neffs
         | _ :: _ => Some (all_neffs (stored w pairs))
         end)).
Proof.
  intros Hall. revert w neffs.
  induction Hall as [|[s t] pairs [Hst Hbeta] _ IH]; intros w neffs; [done|].
  cbn [ess_loop]. cbn [fst snd] in Hst, Hbeta.
  destruct (Req_dec_T (temperature s) (temperature t)) as [_|Hne]; [|done].
  destruct (Req_dec_T (KB_T_KCALPERMOL * temperature s) 0) as [H0|_]; [done|].
  rewrite IH, stored_cons. by destruct pairs.
Qed.

Lemma ess_loop_app p1 p2 w neffs :
  Forall completes p1 ->
  ess_loop w neffs (p1 ++ p2)
  = ess_loop (stored w p1)
      (match p1 with
       | [] => neffs
       | _ :: _ => Some (all_neffs (stored w p1))
       end) p2.
Proof.
  intros Hall. revert w neffs.
  induction Hall as [|[s t] p1 [Hst Hbeta] _ IH]; intros w neffs; [done|].
  cbn [app ess_loop]. cbn [fst snd] in Hst, Hbeta.
  destruct (Req_dec_T (temperature s) (temperature t)) as [_|Hne]; [|done].
  destruct (Req_dec_T (KB_T_KCALPERMOL * temperature s) 0) as [H0|_]; [done|].
  rewrite IH, stored_cons. by destruct p1.
Qed.

(** The first failing assertion stops the loop where it stands. *)
Lemma ess_loop_mismatch p1 s t p2 w neffs :
  Forall completes p1 ->
  temperature s <> temperature t ->
  ess_loop w neffs (p1 ++ (s, t) :: p2) = (stored w p1, Raise AssertionError).
Proof.
  intros Hall Hne. rewrite ess_loop_app by done. cbn [ess_loop].
  by destruct (Req_dec_T (temperature s) (temperature t)).
Qed.

(** Whatever the outcome, the dict holds the records of a prefix of the
    pairs. *)
Lemma ess_loop_prefix pairs w neffs :
  exists k, (ess_loop w neffs pairs).1 = stored w (take k pairs).
Proof.
  revert w neffs. induction pairs as [|[s t] pairs IH]; intros w neffs.
  - by exists 0%nat.
  - cbn [ess_loop].
    destruct (Req_dec_T (temperature s) (temperature t)) as [_|Hne];
      [|by exists 0%nat].
    destruct (Req_dec_T (KB_T_KCALPERMOL * temperature s) 0) as [H0|_];
      [by exists 0%nat|].
    destruct (IH (dict_set (target_name s) (reweight s t) w)
                 (Some (all_neffs (dict_set (target_name s) (reweight s t) w))))
      as [k Hk].
    exists (S k). by rewrite Hk, firstn_cons, stored_cons.
Qed.

(** The call, once the samplers are configured. *)
Lemma get_effective_sample_size_eq self temporary_samplers ss :
  samplers self = Some ss ->
  get_effective_sample_size self temporary_samplers
  = ({| samplers := Some ss;
        weights := (ess_loop (weights self) None (zip ss temporary_samplers)).1 |},
     (ess_loop (weights self) None (zip ss temporary_samplers)).2 ≫= return_min).
Proof.
  intros Hss. unfold get_effective_sample_size. rewrite Hss.
  by destruct (ess_loop _ _ _).
Qed.


(** ** The estimator's claims *)



(** C6.  With [self.samplers] left at [None] the call returns -1; with
    [self.samplers] an empty list, which also configures zero systems,
    the loop body never runs, [neffs] is never bound, and
    [return min(neffs)] raises [UnboundLocalError]. *)
Theorem ess_zero_systems (w : list (string * WeightRecord))
    (temporary_samplers : list (@Sampler positions)) :
  get_effective_sample_size {| samplers := None; weights := w |} temporary_samplers
    = ({| samplers := None; weights := w |}, Ok (Num (-1)))
  /\ get_effective_sample_size {| samplers := Some []; weights := w |} temporary_samplers
    = ({| samplers := Some []; weights := w |}, Raise UnboundLocalError).
Proof. split; reflexivity. Qed.

(** C7.  When the loop reaches a pair whose reference and candidate
    temperatures are not equal, however close, the call raises
    [AssertionError] there and ends: [self.weights] holds the records of
    the pairs before it, nothing was computed or stored for that pair or
    any later one, and the pair is not tried again. *)
Theorem temperature_mismatch_raises self temporary_samplers ss k s t :
  samplers self = Some ss ->
  ss !! k = Some s ->
  temporary_samplers !! k = Some t ->
  Forall completes (take k (zip ss temporary_samplers)) ->
  temperature s <> temperature t ->
  get_effective_sample_size self temporary_samplers
  = ({| samplers := Some ss;
        weights := stored (weights self) (take k (zip ss temporary_samplers)) |},
     Raise AssertionError).
Proof.
  intros Hss Hs Ht Hbefore Hne.
  rewrite (get_effective_sample_size_eq _ _ _ Hss).
  set (pairs := zip ss temporary_samplers) in *.
  assert (pairs !! k = Some (s, t)) as Hk.
  { apply lookup_zip_with_Some. by exists s, t. }
  pose proof (ess_loop_mismatch (take k pairs) s t (drop (S k) pairs)
                (weights self) None Hbefore Hne) as Hloop.
  rewrite <- (drop_S _ _ _ Hk), take_drop in Hloop.
  by rewrite Hloop.
Qed.


(** C10 (amended).  When the two sequences differ in length, the call
    behaves as the call on both sequences cut to the shorter length: same
    result or error, same stored records.  No record is stored under a
    target name that only excess systems carry.  When at least one pair is
    processed and every iteration completes, no error is raised. *)
Theorem zip_ignores_excess self temporary_samplers ss :
  samplers self = Some ss ->
  length ss <> length temporary_samplers ->
  let n := (length ss `min` length temporary_samplers)%nat in
  let cut := {| samplers := Some (take n ss); weights := weights self |} in
  (get_effective_sample_size self temporary_samplers).2
    = (get_effective_sample_size cut (take n temporary_samplers)).2
  /\ weights (get_effective_sample_size self temporary_samplers).1
    = weights (get_effective_sample_size cut (take n temporary_samplers)).1
  /\ (forall key,
        (forall j s, (j < n)%nat -> ss !! j = Some s -> target_name s <> key) ->
        dict_get key (weights (get_effective_sample_size self temporary_samplers).1)
        = dict_get key (weights self))
  /\ ((1 <= n)%nat ->
      Forall completes (zip ss temporary_samplers) ->
      exists v, (get_effective_sample_size self temporary_samplers).2 = Ok v).
Proof.
  intros Hss _ n cut.
  rewrite (get_effective_sample_size_eq _ _ _ Hss).
  rewrite (get_effective_sample_size_eq cut _ (take n ss)) by done.
  cbn [fst snd weights].
  rewrite (zip_with_take_both' pair n n ss temporary_samplers) by done.
  split; [done|]. split; [done|]. split.
  - intros key Hkey.
    destruct (ess_loop_prefix (zip ss temporary_samplers) (weights self) None) as [j ->].
    apply stored_get_other. intros [s t] Hin.
    apply elem_of_take in Hin as (i & Hi & _).
    apply lookup_zip_with_Some in Hi as (s' & t' & [= -> ->] & Hs & Ht).
    apply (Hkey i); [|done].
    apply lookup_lt_Some in Hs. apply lookup_lt_Some in Ht. lia.
  - intros Hn Hmatch.
    rewrite ess_loop_match by done. cbn [snd].
    destruct (zip ss temporary_samplers) as [|[s t] pairs] eqn:Hz.
    { apply (f_equal length) in Hz. rewrite length_zip_with in Hz. simpl in Hz. lia. }
    destruct (py_min_nonempty
                (all_neffs (stored (weights self) ((s, t) :: pairs)))) as [v Hv].
    { assert (stored (weights self) ((s, t) :: pairs) <> []) as Hne
        by (by apply stored_nonempty).
      by destruct (stored (weights self) ((s, t) :: pairs)). }
    exists v. exact Hv.
Qed.

End Estimator.

(** ** The loss loops *)

Lemma mapM_result_app {A B : Type} (f : A -> result B) (l1 l2 : list A) :
  mapM f (l1 ++ l2) = a ← mapM f l1; b ← mapM f l2; Ok (a ++ b).
Proof.
  induction l1 as [|x l1 IH]; cbn.
  - by destruct (mapM f l2).
  - destruct (f x) as [y|e]; cbn; [|done].
    rewrite IH. destruct (mapM f l1) as [a|e]; cbn; [|done].
    by destruct (mapM f l2).
Qed.

Lemma mapM_result_Forall2 {A B : Type} (f : A -> result B) (l : list A) (k : list B) :
  Forall2 (fun x y => f x = Ok y) l k -> mapM f l = Ok k.
Proof.
  induction 1 as [|x y l k Hxy _ IH]; cbn; [done|].
  by rewrite Hxy, IH.
Qed.

Lemma contributes_contribution pred u x :
  contributes pred u x -> contribution pred u = Ok x.
Proof.
  destruct u as [[[i key] v] e]. intros (p & Hp & Hd & ->).
  unfold contribution. rewrite Hp. cbn [mbind result_bind].
  by destruct (Req_dec_T (e ^ 2 + std p ^ 2) 0).
Qed.

(** The branch the source takes on a measurement. *)
Lemma use_of_cases i key m :
  (skipped m /\ use_of i (key, m) = None
   /\ (bool_decide (operator m ∈ uncertain_operators) = true \/ value m = None))
  \/ (exists v, ¬ skipped m /\ value m = Some v
       /\ bool_decide (operator m ∈ uncertain_operators) = false
       /\ use_of i (key, m) = Some (i, key, v, error_or_default m)).
Proof.
  unfold use_of. cbn [fst snd].
  destruct (decide (skipped m)) as [Hs|Hn].
  - left. split; [done|]. split; [done|].
    destruct Hs as [Hv|Hop]; [by right|]. left. by apply bool_decide_eq_true.
  - right. destruct (value m) as [v|] eqn:Hv.
    + exists v. split; [done|]. split; [done|]. split; [|done].
      apply bool_decide_eq_false. intros Hin. apply Hn. by right.
    + exfalso. apply Hn. by left.
Qed.

Lemma items_loop_spec pred i items loss :
  items_loop pred i loss items
  = l ← mapM (contribution pred) (omap (use_of i) items); Ok (loss ++ l).
Proof.
  revert loss. induction items as [|[key m] items IH]; intros loss.
  { cbn. by rewrite app_nil_r. }
  cbn [items_loop omap list_omap].
  destruct (use_of_cases i key m) as [(_ & -> & Hc)|(v & _ & Hv & Hop & ->)].
  - destruct Hc as [->|Hv]; [apply IH|].
    rewrite Hv. destruct (bool_decide _); apply IH.
  - rewrite Hop, Hv. cbn [mapM contribution].
    unfold error_or_default, default.
    destruct (pred_at pred i key) as [p|e]; cbn [mbind result_bind]; [|done].
    destruct (Req_dec_T _ 0) as [H0|_]; cbn [mbind result_bind]; [done|].
    rewrite IH.
    destruct (mapM (contribution pred) (omap (use_of i) items)) as [l|e]; cbn; [|done].
    by rewrite <- app_assoc.
Qed.

Lemma resi_loop_spec pred exp_values i loss :
  resi_loop pred i loss exp_values
  = l ← mapM (contribution pred)
        (concat (imap (fun j exp_dict => omap (use_of (i + j)) exp_dict) exp_values));
    Ok (loss ++ l).
Proof.
  revert i loss. induction exp_values as [|exp_dict rest IH]; intros i loss.
  { cbn. by rewrite app_nil_r. }
  cbn [resi_loop imap concat].
  rewrite items_loop_spec, mapM_result_app, Nat.add_0_r.
  destruct (mapM (contribution pred) (omap (use_of i) exp_dict)) as [a|e]; cbn; [|done].
  rewrite IH.
  rewrite (imap_ext (fun j d => omap (use_of (S i + j)) d)
                    ((fun j d => omap (use_of (i + j)) d) ∘ S)).
  2:{ intros j d _. cbn. by rewrite Nat.add_succ_r. }
  destruct (mapM _ _) as [b|e]; cbn; [|done].
  by rewrite app_assoc.
Qed.

Lemma concat_imap_nil {A B : Type} (f : nat -> A -> list B) (l : list A) :
  (forall i x, x ∈ l -> f i x = []) -> concat (imap f l) = [].
Proof.
  revert f. induction l as [|x l IH]; intros f Hf; [done|].
  cbn [imap concat]. rewrite Hf by (by left). cbn.
  apply IH. intros i y Hy. cbn. apply Hf. by right.
Qed.

Lemma omap_use_of_nil i (exp_dict : list (string * Measurement)) :
  (forall key m, (key, m) ∈ exp_dict -> skipped m) ->
  omap (use_of i) exp_dict = [].
Proof.
  induction exp_dict as [|[key m] exp_dict IH]; intros Hall; [done|].
  cbn [omap list_omap].
  destruct (use_of_cases i key m) as [(_ & -> & _)|(v & Hn & _)].
  - apply IH. intros key' m' Hin. apply (Hall key'). by right.
  - exfalso. apply Hn, (Hall key). by left.
Qed.

Lemma used_measurements_nil (exp : ExperimentRecord) :
  (forall exp_dict, exp_dict ∈ exp.*2 ->
     forall key m, (key, m) ∈ exp_dict -> skipped m) ->
  used_measurements exp = [].
Proof.
  intros Hall. unfold used_measurements.
  apply concat_imap_nil. intros i exp_dict Hin.
  apply omap_use_of_nil. by apply Hall.
Qed.

(** The loops build the list of contributions of the used measurements. *)
Lemma loss_of_spec exp pred :
  loss_of exp pred
  = loss ← mapM (contribution pred) (used_measurements exp); Ok (torch_mean loss).
Proof.
  unfold loss_of, used_measurements. rewrite resi_loop_spec.
  by destruct (mapM _ _).
Qed.

(** ** The loss's claims *)

Section Loss.

Context {positions : Type}.
Variable experiment_yml : string -> ExperimentRecord.
Variable compute_jcouplings :
  string -> string -> option (list R) -> PredictedObservable.

Local Abbreviation _get_experiment_data := (_get_experiment_data experiment_yml).
Local Abbreviation _compute_weighted_observable :=
  (_compute_weighted_observable (positions := positions) compute_jcouplings).
Local Abbreviation _compute_loss_per_system :=
  (_compute_loss_per_system (positions := positions) experiment_yml compute_jcouplings).

(** The three ways line 234 can go. *)
Lemma weighted_observable_cases self atomSubset target_name output_directory_path :
  (weights self = [] ->
   _compute_weighted_observable self atomSubset target_name output_directory_path
   = Ok (compute_jcouplings atomSubset output_directory_path None))
  /\ (forall record, dict_get target_name (weights self) = Some record ->
      _compute_weighted_observable self atomSubset target_name output_directory_path
      = Ok (compute_jcouplings atomSubset output_directory_path (Some (w_i record))))
  /\ (weights self <> [] -> dict_get target_name (weights self) = None ->
      _compute_weighted_observable self atomSubset target_name output_directory_path
      = Raise KeyError).
Proof.
  unfold _compute_weighted_observable.
  split; [|split].
  - by intros ->.
  - intros record Hrec. rewrite Hrec. by destruct (weights self).
  - intros Hne Hnone. rewrite Hnone. by destruct (weights self).
Qed.

(** C2.  When the prediction for the system is at hand and every used
    measurement finds its prediction at the same position and key (with a
    divisor that is not 0), each used measurement contributes
    (pred_avg - exp_value)^2 / (exp_error^2 + pred_std^2) to the list, and
    the loss of the system is the arithmetic mean of the list. *)
Theorem loss_is_mean_of_contributions self sampler pred terms :
  _compute_weighted_observable self (atomSubset sampler) (target_name sampler)
      (output_directory_path sampler) = Ok pred ->
  Forall2 (contributes pred)
    (used_measurements (_get_experiment_data (target_class sampler) (target_name sampler)))
    terms ->
  terms <> [] ->
  _compute_loss_per_system self sampler
  = Ok (TVal (np_sum terms / INR (length terms))).
Proof.
  intros Hpred Hterms Hne.
  unfold _compute_loss_per_system. rewrite Hpred. cbn [mbind result_bind].
  rewrite loss_of_spec.
  rewrite (mapM_result_Forall2 _ _ terms).
  - cbn. by destruct terms.
  - eapply Forall2_impl; [exact Hterms|]. apply contributes_contribution.
Qed.

(** C5.  The loop passes over a measurement without using it if and only
    if its value is missing or its operator is one of > < >= <= ~ (so an
    operator > excludes it whatever its value and error); a measurement
    that is used contributes with its own error, and with the fixed 0.5
    when its error is missing. *)
Theorem skip_rule pred resi_index key m :
  ((forall loss rest,
      items_loop pred resi_index loss ((key, m) :: rest)
      = items_loop pred resi_index loss rest)
   <-> value m = None
       \/ operator m ∈ [Some ">"; Some "<"; Some ">="; Some "<="; Some "~"]%string)
  /\ (operator m = Some ">"%string ->
      forall loss rest,
        items_loop pred resi_index loss ((key, m) :: rest)
        = items_loop pred resi_index loss rest)
  /\ (forall v p,
        value m = Some v ->
        operator m ∉ [Some ">"; Some "<"; Some ">="; Some "<="; Some "~"]%string ->
        pred_at pred resi_index key = Ok p ->
        error m = None ->
        forall loss rest,
          items_loop pred resi_index loss ((key, m) :: rest)
          = items_loop pred resi_index
              (loss ++ [(avg p - v) ^ 2 / (0.5 ^ 2 + std p ^ 2)]) rest)
  /\ (forall v e p,
        value m = Some v ->
        operator m ∉ [Some ">"; Some "<"; Some ">="; Some "<="; Some "~"]%string ->
        pred_at pred resi_index key = Ok p ->
        error m = Some e ->
        e ^ 2 + std p ^ 2 <> 0 ->
        forall loss rest,
          items_loop pred resi_index loss ((key, m) :: rest)
          = items_loop pred resi_index
              (loss ++ [(avg p - v) ^ 2 / (e ^ 2 + std p ^ 2)]) rest).
Proof.
  assert (skipped m -> forall loss rest,
            items_loop pred resi_index loss ((key, m) :: rest)
            = items_loop pred resi_index loss rest) as Hskip.
  { intros Hs loss rest. cbn [items_loop].
    destruct (use_of_cases resi_index key m) as [(_ & _ & Hc)|(v & Hn & _)]; [|done].
    destruct Hc as [-> | ->]; [done|]. by destruct (bool_decide _). }
  split; [split|split; [|split]].
  - intros Hpass.
    destruct (use_of_cases resi_index key m) as [(Hs & _)|(v & _ & Hv & Hop & _)]; [done|].
    specialize (Hpass [] []). cbn [items_loop] in Hpass.
    rewrite Hop, Hv in Hpass.
    destruct (pred_at pred resi_index key); cbn in Hpass; [|discriminate].
    destruct (Req_dec_T _ 0); discriminate.
  - exact Hskip.
  - intros Hop. apply Hskip. right. rewrite Hop. by left.
  - intros v p Hv Hop Hp He loss rest. cbn [items_loop].
    rewrite bool_decide_eq_false_2 by exact Hop.
    rewrite Hv, Hp, He. cbn [mbind result_bind avg std].
    destruct (Req_dec_T (0.5 ^ 2 + std p ^ 2) 0) as [H0|_]; [|done].
    exfalso. pose proof (pow2_ge_0 (std p)). lra.
  - intros v e p Hv Hop Hp He Hd loss rest. cbn [items_loop].
    rewrite bool_decide_eq_false_2 by exact Hop.
    rewrite Hv, Hp, He. cbn [mbind result_bind avg std].
    by destruct (Req_dec_T (e ^ 2 + std p ^ 2) 0).
Qed.

(** C9.  If every measurement of the system is skipped, the loss loops
    append nothing and the mean of the empty list is NaN: the loss of the
    system is NaN, and nothing is raised, whatever the prediction that was
    fetched. *)
Theorem empty_loss_is_nan self sampler pred :
  let exp := _get_experiment_data (target_class sampler) (target_name sampler) in
  (forall unit exp_dict key m,
     (unit, exp_dict) ∈ exp -> (key, m) ∈ exp_dict -> skipped m) ->
  _compute_weighted_observable self (atomSubset sampler) (target_name sampler)
      (output_directory_path sampler) = Ok pred ->
  loss_of exp pred = Ok TNaN
  /\ _compute_loss_per_system self sampler = Ok TNaN.
Proof.
  intros exp Hall Hpred.
  assert (loss_of exp pred = Ok TNaN) as Hloss.
  { rewrite loss_of_spec, used_measurements_nil; [done|].
    intros exp_dict Hin key m Hkm.
    apply list_elem_of_fmap in Hin as ([unit d] & -> & Hin). eauto. }
  split; [done|].
  unfold _compute_loss_per_system. by rewrite Hpred.
Qed.

End Loss.


(** * The claims on concrete sessions *)





Lemma temperature_mismatch_raises_witness :
  get_effective_sample_size 1 (fun _ => ex_traj 1)
    {| samplers := Some [ex_B; ex_A]; weights := [] |} [ex_B; ex_A_hot]
  = ({| samplers := Some [ex_B; ex_A];
        weights := stored 1 (fun _ => ex_traj 1) [] [(ex_B, ex_B)] |},
     Raise AssertionError).
Proof.
  apply (temperature_mismatch_raises 1 (fun _ => ex_traj 1)
           {| samplers := Some [ex_B; ex_A]; weights := [] |}
           [ex_B; ex_A_hot] [ex_B; ex_A] 1 ex_A ex_A_hot).
  - reflexivity.
  - reflexivity.
  - reflexivity.
  - repeat constructor. cbn. lra.
  - cbn. lra.
Defined.



Lemma zip_ignores_excess_witness :
  let self := {| samplers := Some [ex_A; ex_B]; weights := [] |} in
  length [ex_A; ex_B] <> length [ex_A']
  /\ dict_get "B"%string
       (weights (get_effective_sample_size 1 (fun _ => ex_traj 1) self [ex_A']).1)
     = None
  /\ exists v, (get_effective_sample_size 1 (fun _ => ex_traj 1) self [ex_A']).2 = Ok v.
Proof.
  intros self.
  assert (length [ex_A; ex_B] <> length [ex_A']) as Hlen by (simpl; lia).
  destruct (zip_ignores_excess 1 (fun _ => ex_traj 1) self [ex_A'] [ex_A; ex_B]
              eq_refl Hlen) as (_ & _ & Hkeys & Hok).
  split; [exact Hlen|]. split.
  - rewrite (Hkeys "B"%string); [reflexivity|].
    intros j s Hj Hs. simpl in Hj.
    destruct j as [|j]; [|lia]. by injection Hs as <-.
  - apply Hok; [simpl; lia | repeat constructor; cbn; lra].
Defined.

Lemma zip_excess_counterexample :
  length [ex_A] <> length (@nil (@Sampler nat))
  /\ (get_effective_sample_size 1 (fun _ => ex_traj 1)
        {| samplers := Some [ex_A]; weights := [] |} []).2
     = Raise UnboundLocalError.
Proof. split; [simpl; lia | reflexivity]. Qed.

Lemma loss_is_mean_of_contributions_witness :
  _compute_loss_per_system (fun _ => ex_exp) (fun _ _ _ => ex_pred)
    {| samplers := Some [ex_A]; weights := [] |} ex_A
  = Ok (TVal 0.4).
Proof.
  rewrite (loss_is_mean_of_contributions (fun _ => ex_exp) (fun _ _ _ => ex_pred)
             {| samplers := Some [ex_A]; weights := [] |} ex_A ex_pred
             [(0.8 - 1) ^ 2 / (0.2 ^ 2 + 0.1 ^ 2); (2 - 2) ^ 2 / (0.5 ^ 2 + 0 ^ 2)]).
  - do 2 f_equal. unfold np_sum, foldr, length, INR. lra.
  - reflexivity.
  - change (used_measurements (_get_experiment_data (fun _ => ex_exp)
              (target_class ex_A) (target_name ex_A)))
      with [(0%nat, "1H5P"%string, 1, 0.2); (0%nat, "2H5P"%string, 2, 0.5)].
    repeat constructor.
    + exists {| avg := 0.8; std := 0.1 |}.
      split; [reflexivity|]. split; [cbn [std]; lra | reflexivity].
    + exists {| avg := 2; std := 0 |}.
      split; [reflexivity|]. split; [cbn [std]; lra | reflexivity].
  - discriminate.
Defined.

Lemma empty_loss_is_nan_witness :
  loss_of ex_exp_skipped ex_pred = Ok TNaN
  /\ _compute_loss_per_system (fun _ => ex_exp_skipped) (fun _ _ _ => ex_pred)
       {| samplers := Some [ex_A]; weights := [] |} ex_A
     = Ok TNaN.
Proof.
  apply (empty_loss_is_nan (fun _ => ex_exp_skipped) (fun _ _ _ => ex_pred)
           {| samplers := Some [ex_A]; weights := [] |} ex_A ex_pred).
  - intros unit exp_dict key m Hin Hkm.
    apply list_elem_of_singleton in Hin. injection Hin as -> ->.
    apply elem_of_cons in Hkm as [[= -> ->]|Hkm].
    { left. reflexivity. }
    apply list_elem_of_singleton in Hkm. injection Hkm as -> ->.
    right. cbn. by left.
  - reflexivity.
Defined.

(** C4.  With a record cached for target B only, the prediction for target
    A is not the unweighted one: the dict has a key, so the code reads
    [self.weights['A']] and raises [KeyError]. *)
Theorem weighted_observable_other_target
    (compute_jcouplings : string -> string -> option (list R) -> PredictedObservable)
    (record : WeightRecord) :
  _compute_weighted_observable (positions := nat) compute_jcouplings
    {| samplers := Some [ex_A; ex_B]; weights := [("B"%string, record)] |}
    (atomSubset ex_A) (target_name ex_A) (output_directory_path ex_A)
  = Raise KeyError.
Proof. reflexivity. Qed.

(** * Further properties of the code *)

(** ** Dicts keep their keys unique and in place *)

Section DictLaws.

Context {V : Type}.
Implicit Types (d : list (string * V)) (k : string) (v : V).

Lemma dict_get_None d k : dict_get k d = None <-> k ∉ dict_keys d.
Proof.
  unfold dict_keys. induction d as [|[k' v'] d IH]; cbn.
  - split; [intros _; apply not_elem_of_nil | done].
  - destruct (decide (k' = k)) as [->|Hne].
    + split; [done|]. intros Hn. exfalso. apply Hn. by left.
    + rewrite IH. split.
      * intros Hn Hin. apply elem_of_cons in Hin as [?|?]; [congruence | done].
      * intros Hn Hin. apply Hn. by right.
Qed.

Lemma dict_keys_set_present d k v :
  k ∈ dict_keys d -> dict_keys (dict_set k v d) = dict_keys d.
Proof.
  unfold dict_keys. induction d as [|[k' v'] d IH]; cbn; intros Hin.
  - by apply elem_of_nil in Hin.
  - destruct (decide (k' = k)) as [->|Hne]; cbn; [done|].
    f_equal. apply IH. apply elem_of_cons in Hin as [?|?]; [congruence | done].
Qed.

Lemma dict_keys_set_absent d k v :
  k ∉ dict_keys d -> dict_keys (dict_set k v d) = dict_keys d ++ [k].
Proof.
  unfold dict_keys. induction d as [|[k' v'] d IH]; cbn; intros Hout; [done|].
  destruct (decide (k' = k)) as [->|Hne]; cbn.
  - exfalso. apply Hout. by left.
  - f_equal. apply IH. intros Hin. apply Hout. by right.
Qed.

Lemma dict_keys_set d k v :
  exists new, dict_keys (dict_set k v d) = dict_keys d ++ new.
Proof.
  destruct (decide (k ∈ dict_keys d)) as [Hin|Hout].
  - exists []. by rewrite app_nil_r, dict_keys_set_present.
  - exists [k]. by apply dict_keys_set_absent.
Qed.

Lemma dict_keys_set_NoDup d k v :
  NoDup (dict_keys d) -> NoDup (dict_keys (dict_set k v d)).
Proof.
  intros Hd. destruct (decide (k ∈ dict_keys d)) as [Hin|Hout].
  - by rewrite dict_keys_set_present.
  - rewrite dict_keys_set_absent by done.
    apply NoDup_app. split; [done|]. split.
    + intros x Hx Hk. apply list_elem_of_singleton in Hk. by subst.
    + apply NoDup_singleton.
Qed.

(** A dict is its keys, in order, and what each key gets. *)
Lemma dict_ext d1 d2 :
  dict_keys d1 = dict_keys d2 ->
  NoDup (dict_keys d1) ->
  (forall k, dict_get k d1 = dict_get k d2) ->
  d1 = d2.
Proof.
  unfold dict_keys. revert d2.
  induction d1 as [|[k1 v1] d1 IH]; intros [|[k2 v2] d2] Hkeys Hnd Hget;
    try done.
  cbn in Hkeys. injection Hkeys as <- Hkeys.
  apply NoDup_cons in Hnd as [Hk1 Hnd].
  pose proof (Hget k1) as H1. cbn in H1. rewrite !decide_True in H1 by done.
  injection H1 as <-. f_equal.
  apply IH; [done | done |].
  intros k. specialize (Hget k). cbn in Hget.
  destruct (decide (k1 = k)) as [<-|Hne]; [|done].
  assert (dict_get k1 d1 = None) as -> by (by apply dict_get_None).
  symmetry. apply dict_get_None. unfold dict_keys. by rewrite <- Hkeys.
Qed.

End DictLaws.

(** ** More on one iteration: shifts, uniform weights, the lower bound *)

Lemma np_sum_replicate (n : nat) (x : R) : np_sum (replicate n x) = INR n * x.
Proof.
  induction n as [|n IH].
  - simpl. lra.
  - cbn [replicate np_sum foldr]. fold (np_sum (replicate n x)).
    rewrite IH, S_INR. lra.
Qed.









Section EstimatorLaws.

Context {positions : Type}.
Variable KB_T_KCALPERMOL : R.
Variable mdtraj_load : string -> @Trajectory positions.

Local Abbreviation reweight := (reweight KB_T_KCALPERMOL mdtraj_load).
Local Abbreviation ess_loop := (ess_loop KB_T_KCALPERMOL mdtraj_load).
Local Abbreviation get_effective_sample_size :=
  (get_effective_sample_size KB_T_KCALPERMOL mdtraj_load).
Local Abbreviation stored := (stored KB_T_KCALPERMOL mdtraj_load).
Local Abbreviation completes := (completes KB_T_KCALPERMOL).
Local Abbreviation weight_of := (spec_weight KB_T_KCALPERMOL).
Local Abbreviation logw_of := (spec_logw KB_T_KCALPERMOL).

Implicit Types (s t : @Sampler positions).
Implicit Types (w : list (string * WeightRecord)).





(** ** More on the loop: keys, repetition, outcomes *)

Lemma stored_keys_extend w pairs :
  exists new, dict_keys (stored w pairs) = dict_keys w ++ new.
Proof.
  induction pairs as [|[s t] pairs [new IH]] using rev_ind.
  - exists []. by rewrite app_nil_r.
  - rewrite stored_snoc.
    destruct (dict_keys_set (stored w pairs) (target_name s) (reweight s t))
      as [new' ->].
    exists (new ++ new'). by rewrite IH, app_assoc.
Qed.

Lemma stored_keys_NoDup w pairs :
  NoDup (dict_keys w) -> NoDup (dict_keys (stored w pairs)).
Proof.
  intros Hw. induction pairs as [|[s t] pairs IH] using rev_ind; [done|].
  rewrite stored_snoc. by apply dict_keys_set_NoDup.
Qed.

Lemma stored_keys_present w pairs :
  (forall pair, pair ∈ pairs -> target_name pair.1 ∈ dict_keys w) ->
  dict_keys (stored w pairs) = dict_keys w.
Proof.
  intros Hin. induction pairs as [|[s t] pairs IH] using rev_ind; [done|].
  rewrite stored_snoc, dict_keys_set_present.
  - apply IH. intros pair Hp. apply Hin, elem_of_app. by left.
  - rewrite IH.
    + apply (Hin (s, t)), elem_of_app. right. by left.
    + intros pair Hp. apply Hin, elem_of_app. by left.
Qed.

Lemma stored_name_in_keys w pairs pair :
  pair ∈ pairs -> target_name pair.1 ∈ dict_keys (stored w pairs).
Proof.
  destruct pair as [s t]. intros Hin.
  destruct (stored_is_Some KB_T_KCALPERMOL mdtraj_load w pairs s t Hin) as [r Hr].
  destruct (decide (target_name s ∈ dict_keys (stored w pairs))) as [|Hout]; [done|].
  apply dict_get_None in Hout. cbn [fst] in Hout. congruence.
Qed.

Lemma stored_get_last w p1 p2 s t :
  (forall pair, pair ∈ p2 -> target_name pair.1 <> target_name s) ->
  dict_get (target_name s) (stored w (p1 ++ (s, t) :: p2)) = Some (reweight s t).
Proof.
  intros Hne. rewrite stored_app, stored_cons.
  rewrite stored_get_other by done. apply dict_get_set_eq.
Qed.

Lemma last_occurrence (pairs : list (@Sampler positions * @Sampler positions)) key :
  Exists (fun pair => target_name pair.1 = key) pairs ->
  exists p1 s t p2,
    pairs = p1 ++ (s, t) :: p2
    /\ target_name s = key
    /\ (forall pair, pair ∈ p2 -> target_name pair.1 <> key).
Proof.
  induction pairs as [|[s t] pairs IH] using rev_ind; intros Hex.
  { by apply Exists_nil in Hex. }
  destruct (decide (target_name s = key)) as [Heq|Hne].
  - exists pairs, s, t, []. split; [done|]. split; [done|].
    intros pair Hin. by apply elem_of_nil in Hin.
  - apply Exists_app in Hex as [Hex|Hex].
    + destruct (IH Hex) as (p1 & s' & t' & p2 & -> & Hk & Hlater).
      exists p1, s', t', (p2 ++ [(s, t)]). split; [by rewrite <- app_assoc|].
      split; [done|]. intros pair Hin.
      apply elem_of_app in Hin as [Hin|Hin]; [by apply Hlater|].
      apply list_elem_of_singleton in Hin. by subst pair.
    + apply Exists_cons in Hex as [Hex|Hex]; [done | by apply Exists_nil in Hex].
Qed.

(** Writing the same records a second time changes nothing. *)
Lemma stored_idem w pairs :
  NoDup (dict_keys w) -> stored (stored w pairs) pairs = stored w pairs.
Proof.
  intros Hw. apply dict_ext.
  - apply stored_keys_present. intros pair Hin. by apply stored_name_in_keys.
  - by do 2 apply stored_keys_NoDup.
  - intros key.
    destruct (decide (Exists (fun pair : @Sampler positions * @Sampler positions =>
                                target_name pair.1 = key) pairs)) as [Hex|Hno].
    + destruct (last_occurrence pairs key Hex) as (p1 & s & t & p2 & -> & <- & Hlater).
      by rewrite !stored_get_last.
    + rewrite !(stored_get_other KB_T_KCALPERMOL mdtraj_load); [done | |].
      all: intros pair Hin Hk; apply Hno, Exists_exists; eauto.
Qed.

(** The loop either completes every pair or stops at the first pair that
    does not complete, with the exception of that pair. *)
Lemma ess_loop_cases (pairs : list (@Sampler positions * @Sampler positions)) :
  Forall completes pairs
  \/ exists p1 s t p2 e,
       pairs = p1 ++ (s, t) :: p2
       /\ Forall completes p1
       /\ (e = AssertionError \/ e = ZeroDivisionError)
       /\ (forall w neffs, ess_loop w neffs pairs = (stored w p1, Raise e)).
Proof.
  induction pairs as [|[s t] pairs IH]; [by left|].
  destruct (Req_dec_T (temperature s) (temperature t)) as [Heq|Hne].
  - destruct (Req_dec_T (KB_T_KCALPERMOL * temperature s) 0) as [H0|Hn0].
    + right. exists [], s, t, pairs, ZeroDivisionError.
      split; [done|]. split; [constructor|]. split; [by right|].
      intros w neffs. cbn [ess_loop].
      destruct (Req_dec_T (temperature s) (temperature t)); [|done].
      by destruct (Req_dec_T (KB_T_KCALPERMOL * temperature s) 0).
    + assert (completes (s, t)) as Hc by (by split).
      destruct IH as [Hall|(p1 & s' & t' & p2 & e & -> & Hall & He & Hloop)].
      * left. by constructor.
      * right. exists ((s, t) :: p1), s', t', p2, e.
        split; [done|]. split; [by constructor|]. split; [done|].
        intros w neffs.
        change ((s, t) :: p1 ++ (s', t') :: p2)
          with ([(s, t)] ++ (p1 ++ (s', t') :: p2)).
        rewrite ess_loop_app by (by constructor).
        by rewrite Hloop.
  - right. exists [], s, t, pairs, AssertionError.
    split; [done|]. split; [constructor|]. split; [by left|].
    intros w neffs. cbn [ess_loop].
    by destruct (Req_dec_T (temperature s) (temperature t)).
Qed.

Lemma stored_get_NoDup w pairs s t :
  NoDup (map (fun pair : @Sampler positions * @Sampler positions =>
                target_name pair.1) pairs) ->
  (s, t) ∈ pairs ->
  dict_get (target_name s) (stored w pairs) = Some (reweight s t).
Proof.
  intros Hnd Hin.
  apply list_elem_of_split in Hin as (p1 & p2 & ->).
  apply stored_get_last. intros pair Hp Heq.
  rewrite map_app in Hnd. apply NoDup_app in Hnd as (_ & _ & Hnd).
  cbn [map fst] in Hnd. apply NoDup_cons in Hnd as [Hout _].
  apply Hout. rewrite <- Heq.
  apply (list_elem_of_fmap_2 (fun pair : @Sampler positions * @Sampler positions =>
                                target_name pair.1) _ _ Hp).
Qed.

(** The call on configured samplers whose pairs all complete. *)
Lemma get_effective_sample_size_completes self temporary_samplers ss :
  samplers self = Some ss ->
  Forall completes (zip ss temporary_samplers) ->
  zip ss temporary_samplers <> [] ->
  get_effective_sample_size self temporary_samplers
  = ({| samplers := Some ss;
        weights := stored (weights self) (zip ss temporary_samplers) |},
     py_min (all_neffs (stored (weights self) (zip ss temporary_samplers)))).
Proof.
  intros Hss Hall Hne.
  rewrite (get_effective_sample_size_eq _ _ _ _ _ Hss), ess_loop_match by done.
  cbn [fst snd]. by destruct (zip ss temporary_samplers).
Qed.

(** ** Further properties of get_effective_sample_size *)







(** X7.  On a session without cached records, when the first processed
    system has a trajectory of 0 frames and its target name is not reused
    in the pass, a pass that completes returns NaN, whatever the ESS of
    the other systems. *)
Theorem ess_nan_first self temporary_samplers ss s0 t0 rest :
  samplers self = Some ss ->
  weights self = [] ->
  zip ss temporary_samplers = (s0, t0) :: rest ->
  Forall completes (zip ss temporary_samplers) ->
  n_frames (mdtraj_load (output_directory_path s0)) = 0%nat ->
  (forall pair, pair ∈ rest -> target_name pair.1 <> target_name s0) ->
  (get_effective_sample_size self temporary_samplers).2 = Ok NaN.
Proof.
  intros Hss Hw Hz Hall HN Hlater.
  rewrite (get_effective_sample_size_completes _ _ ss); [|done|done|by rewrite Hz].
  cbn [snd]. rewrite Hw, Hz, stored_cons. cbn [dict_set].
  destruct (reweight_neff_nan KB_T_KCALPERMOL mdtraj_load s0 t0 HN) as [_ Hnan].
  assert (forall d,
            stored ((target_name s0, reweight s0 t0) :: d) rest
            = (target_name s0, reweight s0 t0) :: stored d rest) as Hhead.
  { clear Hz Hall. induction rest as [|[s t] rest IH]; intros d; [done|].
    rewrite !stored_cons. cbn [dict_set].
    rewrite decide_False.
    - apply IH. intros pair Hin. apply Hlater. by right.
    - intros Heq. by apply (Hlater (s, t)); [left|]. }
  rewrite Hhead. cbn [all_neffs map snd py_min]. rewrite Hnan. f_equal.
  generalize (map (fun kv : string * WeightRecord => neff kv.2) (stored [] rest)).
  intros l. induction l as [|y l IH]; [done|].
  cbn [foldl np_less]. by destruct y.
Qed.

(** X8.  Whatever its outcome, a call keeps [self.samplers], keeps the
    keys that [self.weights] had, in their order, adding new keys after
    them, and keeps the keys distinct. *)
Theorem ess_keys_invariant self temporary_samplers :
  NoDup (dict_keys (weights self)) ->
  let after := (get_effective_sample_size self temporary_samplers).1 in
  samplers after = samplers self
  /\ NoDup (dict_keys (weights after))
  /\ exists new, dict_keys (weights after) = dict_keys (weights self) ++ new.
Proof.
  intros Hnd after. unfold after.
  destruct (samplers self) as [ss|] eqn:Hss.
  - rewrite (get_effective_sample_size_eq _ _ _ _ _ Hss). cbn [fst weights samplers].
    destruct (ess_loop_prefix KB_T_KCALPERMOL mdtraj_load
                (zip ss temporary_samplers) (weights self) None) as [j ->].
    split; [done|]. split; [by apply stored_keys_NoDup | apply stored_keys_extend].
  - unfold get_effective_sample_size. rewrite Hss. cbn [fst].
    split; [done|]. split; [done|]. exists []. by rewrite app_nil_r.
Qed.

(** X9.  Calling again with the same arguments, on the state the first
    call left, gives the same result (or the same exception) and leaves
    that state as it is. *)
Theorem ess_idempotent self temporary_samplers :
  NoDup (dict_keys (weights self)) ->
  get_effective_sample_size
    (get_effective_sample_size self temporary_samplers).1 temporary_samplers
  = get_effective_sample_size self temporary_samplers.
Proof.
  intros Hnd.
  destruct (samplers self) as [ss|] eqn:Hss.
  2:{ unfold get_effective_sample_size at 2 3. rewrite Hss. cbn [fst].
      unfold get_effective_sample_size. by rewrite Hss. }
  rewrite (get_effective_sample_size_eq _ _ self _ _ Hss). cbn [fst].
  rewrite (get_effective_sample_size_eq _ _ _ _ ss) by done. cbn [weights].
  destruct (ess_loop_cases (zip ss temporary_samplers))
    as [Hall|(p1 & s & t & p2 & e & Hz & Hall & _ & Hloop)].
  - rewrite !ess_loop_match by done. cbn [fst snd].
    by rewrite stored_idem.
  - rewrite !Hloop. cbn [fst snd]. by rewrite stored_idem.
Qed.

(** X10.  The only exceptions a call raises are [AssertionError],
    [ZeroDivisionError] and, when no pair is formed because one of the two
    sequences is empty, [UnboundLocalError]; [min] never sees an empty
    list. *)
Theorem ess_exceptions self temporary_samplers e :
  (get_effective_sample_size self temporary_samplers).2 = Raise e ->
  e = AssertionError
  \/ e = ZeroDivisionError
  \/ (e = UnboundLocalError
      /\ exists ss, samplers self = Some ss /\ (ss = [] \/ temporary_samplers = [])).
Proof.
  destruct (samplers self) as [ss|] eqn:Hss.
  2:{ unfold get_effective_sample_size. by rewrite Hss. }
  rewrite (get_effective_sample_size_eq _ _ _ _ _ Hss). cbn [snd].
  destruct (ess_loop_cases (zip ss temporary_samplers))
    as [Hall|(p1 & s & t & p2 & e' & Hz & _ & He & Hloop)].
  - rewrite ess_loop_match by done. cbn [snd].
    destruct (zip ss temporary_samplers) as [|pair pairs] eqn:Hz.
    + intros [= <-]. right. right. split; [done|]. exists ss. split; [done|].
      by apply zip_with_nil_inv in Hz.
    + destruct (py_min_nonempty
                  (all_neffs (stored (weights self) (pair :: pairs)))) as [v Hv].
      { assert (stored (weights self) (pair :: pairs) <> []) as Hne
          by (by apply stored_nonempty).
        by destruct (stored (weights self) (pair :: pairs)). }
      intros Hr.
      change (py_min (all_neffs (stored (weights self) (pair :: pairs))) = Raise e)
        in Hr.
      rewrite Hv in Hr. discriminate.
  - rewrite Hloop. cbn. intros [= <-]. destruct He; auto.
Qed.

End EstimatorLaws.

(** ** More on the loss loops *)

Lemma mapM_result_Ok {A B : Type} (f : A -> result B) (l : list A) (k : list B) :
  mapM f l = Ok k <-> Forall2 (fun x y => f x = Ok y) l k.
Proof.
  split; [|apply mapM_result_Forall2].
  revert k. induction l as [|x l IH]; intros k; cbn.
  - intros [= <-]. constructor.
  - destruct (f x) as [y|e] eqn:Hx; cbn; [|done].
    destruct (mapM f l) as [k'|e] eqn:Hl; cbn; [|done].
    intros [= <-]. constructor; [done | by apply IH].
Qed.

Lemma mapM_result_raise {A B : Type} (f : A -> result B) (l1 l2 : list A) x e :
  Forall (fun y => exists b, f y = Ok b) l1 ->
  f x = Raise e ->
  mapM f (l1 ++ x :: l2) = Raise e.
Proof.
  intros Hall Hx. induction Hall as [|y l1 [b Hy] _ IH]; cbn.
  - by rewrite Hx.
  - by rewrite Hy, IH.
Qed.

Lemma mapM_result_ext_in {A B : Type} (f g : A -> result B) (l : list A) :
  (forall x, x ∈ l -> f x = g x) -> mapM f l = mapM g l.
Proof.
  induction l as [|x l IH]; intros Hfg; [done|].
  cbn. rewrite (Hfg x) by (by left).
  by rewrite IH by (intros y Hy; apply Hfg; by right).
Qed.

Lemma mapM_result_Permutation {A B : Type} (f : A -> result B) (l l' : list A) k :
  l ≡ₚ l' -> mapM f l = Ok k -> exists k', mapM f l' = Ok k' /\ k ≡ₚ k'.
Proof.
  intros Hperm. revert k.
  induction Hperm as [|x l l' _ IH|x y l|l l' l'' _ IH1 _ IH2]; intros k; cbn.
  - intros [= <-]. by exists [].
  - destruct (f x) as [b|e]; cbn; [|done].
    destruct (mapM f l) as [k0|e]; cbn; [|done]. intros [= <-].
    destruct (IH k0 eq_refl) as (k' & -> & Hk). cbn.
    exists (b :: k'). split; [done|]. by constructor.
  - destruct (f y) as [b|e]; cbn; [|done].
    destruct (f x) as [c|e]; cbn; [|done].
    destruct (mapM f l) as [k0|e]; cbn; [|done]. intros [= <-].
    exists (c :: b :: k0). split; [done|]. constructor.
  - intros Hk. destruct (IH1 k Hk) as (k1 & Hk1 & Hp1).
    destruct (IH2 k1 Hk1) as (k2 & Hk2 & Hp2).
    exists k2. split; [done|]. by etrans.
Qed.

Lemma np_sum_Permutation (l l' : list R) : l ≡ₚ l' -> np_sum l = np_sum l'.
Proof.
  induction 1 as [|x l l' _ IH|x y l|l l' l'' _ IH1 _ IH2]; cbn.
  - done.
  - fold (np_sum l) (np_sum l'). by rewrite IH.
  - lra.
  - by etrans.
Qed.

Lemma torch_mean_Permutation (l l' : list R) :
  l ≡ₚ l' -> torch_mean l = torch_mean l'.
Proof.
  intros Hperm. destruct l as [|x l], l' as [|x' l'].
  - done.
  - by apply Permutation_nil_cons in Hperm.
  - symmetry in Hperm. by apply Permutation_nil_cons in Hperm.
  - cbn [torch_mean].
    by rewrite (np_sum_Permutation _ _ Hperm), (Permutation_length Hperm).
Qed.

Lemma contribution_nonneg pred u x : contribution pred u = Ok x -> 0 <= x.
Proof.
  destruct u as [[[i key] v] e]. unfold contribution.
  destruct (pred_at pred i key) as [p|?]; cbn [mbind result_bind]; [|done].
  destruct (Req_dec_T (e ^ 2 + std p ^ 2) 0) as [|Hd]; [done|].
  intros [= <-].
  pose proof (pow2_ge_0 e). pose proof (pow2_ge_0 (std p)).
  pose proof (pow2_ge_0 (avg p - v)).
  apply Rmult_le_pos; [done|].
  apply Rlt_le, Rinv_0_lt_compat. lra.
Qed.

Lemma np_sum_nonneg (l : list R) : Forall (fun x => 0 <= x) l -> 0 <= np_sum l.
Proof. induction 1 as [|x l Hx _ IH]; cbn; [lra|]. fold (np_sum l). lra. Qed.

Lemma use_of_with_default i (kv : string * Measurement) :
  use_of i (kv.1, {| name := name kv.2;
                     value := value kv.2;
                     operator := operator kv.2;
                     error := Some (error_or_default kv.2) |})
  = use_of i kv.
Proof.
  destruct kv as [key m]. unfold use_of. cbn [fst snd].
  destruct (decide (skipped m)) as [Hs|Hn];
    destruct (decide (skipped _)) as [Hs'|Hn'];
    [done | exfalso; apply Hn'; exact Hs | exfalso; apply Hn; exact Hs' | reflexivity].
Qed.

Lemma concat_imap_omap_with_default (f : nat -> nat) (exp : ExperimentRecord) :
  concat (imap (fun i exp_dict => omap (use_of (f i)) exp_dict)
               (with_default_error exp).*2)
  = concat (imap (fun i exp_dict => omap (use_of (f i)) exp_dict) exp.*2).
Proof.
  revert f. induction exp as [|[unit d] exp IH]; intros f; [done|].
  cbn [with_default_error map fmap list_fmap imap concat fst snd]. f_equal.
  - induction d as [|kv d IHd]; [done|].
    cbn [map omap list_omap]. by rewrite use_of_with_default, IHd.
  - apply (IH (f ∘ S)).
Qed.

Lemma used_measurements_with_default (exp : ExperimentRecord) :
  used_measurements (with_default_error exp) = used_measurements exp.
Proof. apply (concat_imap_omap_with_default (fun i => i)). Qed.

Lemma concat_imap_omap_Permutation (f : nat -> nat)
    (l1 l2 : list (list (string * Measurement))) :
  Forall2 (≡ₚ) l1 l2 ->
  concat (imap (fun i exp_dict => omap (use_of (f i)) exp_dict) l1)
  ≡ₚ concat (imap (fun i exp_dict => omap (use_of (f i)) exp_dict) l2).
Proof.
  intros Hrel. revert f.
  induction Hrel as [|d1 d2 l1 l2 Hd _ IH]; intros f; [done|].
  cbn [imap concat]. apply Permutation_app.
  - by apply omap_Permutation.
  - apply (IH (f ∘ S)).
Qed.

Lemma used_measurements_Permutation (exp1 exp2 : ExperimentRecord) :
  Forall2 (fun unit1 unit2 => unit1.2 ≡ₚ unit2.2) exp1 exp2 ->
  used_measurements exp1 ≡ₚ used_measurements exp2.
Proof.
  intros Hrel. apply (concat_imap_omap_Permutation (fun i => i)).
  induction Hrel; cbn; constructor; done.
Qed.

(** ** Further properties of the loss *)

Section LossLaws.

Context {positions : Type}.
Variable KB_T_KCALPERMOL : R.
Variable mdtraj_load : string -> @Trajectory positions.
Variable experiment_yml : string -> ExperimentRecord.
Variable compute_jcouplings :
  string -> string -> option (list R) -> PredictedObservable.

Local Abbreviation get_effective_sample_size :=
  (get_effective_sample_size KB_T_KCALPERMOL mdtraj_load).
Local Abbreviation reweight := (reweight KB_T_KCALPERMOL mdtraj_load).
Local Abbreviation stored := (stored KB_T_KCALPERMOL mdtraj_load).
Local Abbreviation completes := (completes KB_T_KCALPERMOL).
Local Abbreviation _get_experiment_data := (_get_experiment_data experiment_yml).
Local Abbreviation _compute_weighted_observable :=
  (_compute_weighted_observable (positions := positions) compute_jcouplings).
Local Abbreviation _compute_loss_per_system :=
  (_compute_loss_per_system (positions := positions) experiment_yml compute_jcouplings).
Local Abbreviation compute_loss :=
  (compute_loss (positions := positions) experiment_yml compute_jcouplings).

(** X11.  [compute_loss] succeeds exactly when the samplers are configured
    and the loss of every system succeeds; it then returns one loss per
    system, in the order of [self.samplers], with no reduction across
    systems. *)
Theorem compute_loss_one_per_system self losses :
  compute_loss self = Ok losses
  <-> exists ss, samplers self = Some ss
                 /\ Forall2 (fun sampler loss =>
                               _compute_loss_per_system self sampler = Ok loss)
                            ss losses.
Proof.
  unfold compute_loss. destruct (samplers self) as [ss|].
  - rewrite mapM_result_Ok. split; [by exists ss|]. by intros (? & [= <-] & ?).
  - split; [done|]. by intros (? & ? & _).
Qed.

(** X12.  [compute_loss] stops at the first system whose loss raises and
    raises that exception; the systems after it are not looked at. *)
Theorem compute_loss_fail_fast self ss1 sampler ss2 e :
  samplers self = Some (ss1 ++ sampler :: ss2) ->
  Forall (fun s => exists loss, _compute_loss_per_system self s = Ok loss) ss1 ->
  _compute_loss_per_system self sampler = Raise e ->
  compute_loss self = Raise e.
Proof.
  intros Hss Hall He. unfold compute_loss. rewrite Hss.
  by apply mapM_result_raise.
Qed.

(** X13.  A loss that is a number is never negative. *)
Theorem loss_nonneg self sampler x :
  _compute_loss_per_system self sampler = Ok (TVal x) -> 0 <= x.
Proof.
  unfold _compute_loss_per_system.
  destruct (_compute_weighted_observable _ _ _ _) as [pred|?];
    cbn [mbind result_bind]; [|done].
  rewrite loss_of_spec.
  destruct (mapM (contribution pred) _) as [terms|?] eqn:Hterms;
    cbn [mbind result_bind]; [|done].
  intros [= Hmean].
  apply mapM_result_Ok in Hterms.
  assert (Forall (fun y => 0 <= y) terms) as Hpos.
  { clear Hmean. induction Hterms as [|u y us ys Hu _ IH]; constructor; [|done].
    by eapply contribution_nonneg. }
  destruct terms as [|y terms]; [done|].
  cbn [torch_mean] in Hmean. injection Hmean as <-.
  apply Rmult_le_pos; [exact (np_sum_nonneg (y :: terms) Hpos)|].
  apply Rlt_le, Rinv_0_lt_compat, (lt_0_INR (length (y :: terms))). cbn. lia.
Qed.

(** X14.  When the prediction has been fetched and the first used
    measurement without a usable prediction sits at a position the
    prediction does not have, the loss raises [IndexError]; when the
    prediction has that position but not the key, it raises [KeyError].
    Skipped measurements need no prediction. *)
Theorem loss_missing_prediction self sampler pred us1 i key v e us2 :
  _compute_weighted_observable self (atomSubset sampler) (target_name sampler)
      (output_directory_path sampler) = Ok pred ->
  used_measurements (_get_experiment_data (target_class sampler) (target_name sampler))
    = us1 ++ (i, key, v, e) :: us2 ->
  Forall (fun u => exists x, contributes pred u x) us1 ->
  ((length pred <= i)%nat ->
   _compute_loss_per_system self sampler = Raise IndexError)
  /\ (forall d, pred.*2 !! i = Some d -> d !! key = None ->
      _compute_loss_per_system self sampler = Raise KeyError).
Proof.
  intros Hpred Hused Hbefore.
  assert (forall ex, pred_at pred i key = Raise ex ->
            _compute_loss_per_system self sampler = Raise ex) as Hraise.
  { intros ex Hex. unfold _compute_loss_per_system.
    rewrite Hpred. cbn [mbind result_bind].
    rewrite loss_of_spec, Hused.
    rewrite (mapM_result_raise _ _ _ _ ex); [done| |].
    - eapply Forall_impl; [exact Hbefore|].
      intros u [x Hx]. exists x. by apply contributes_contribution.
    - unfold contribution. by rewrite Hex. }
  split.
  - intros Hlen. apply Hraise. unfold pred_at.
    rewrite (lookup_ge_None_2 (pred.*2) i); [done|]. by rewrite length_fmap.
  - intros d Hd Hkey. apply Hraise. unfold pred_at. by rewrite Hd, Hkey.
Qed.

(** X15.  After a pass that completes over distinct target names, the
    predicted observable of every processed system is computed with the
    weights that the pass stored for that system. *)
Theorem observable_after_pass self temporary_samplers ss s t :
  samplers self = Some ss ->
  Forall completes (zip ss temporary_samplers) ->
  NoDup (map (fun pair : @Sampler positions * @Sampler positions =>
                target_name pair.1) (zip ss temporary_samplers)) ->
  (s, t) ∈ zip ss temporary_samplers ->
  _compute_weighted_observable
    (get_effective_sample_size self temporary_samplers).1
    (atomSubset s) (target_name s) (output_directory_path s)
  = Ok (compute_jcouplings (atomSubset s) (output_directory_path s)
          (Some (w_i (reweight s t)))).
Proof.
  intros Hss Hall Hnd Hin.
  rewrite (get_effective_sample_size_completes _ _ _ _ ss); [|done|done|].
  2:{ intros Hz. rewrite Hz in Hin. by apply elem_of_nil in Hin. }
  cbn [fst].
  apply weighted_observable_cases. cbn [weights].
  by apply stored_get_NoDup.
Qed.

(** X16.  After a pass that completes on at least one pair, the loss of a
    system that has no record, neither from before the pass nor from the
    pass (an excess system of a shorter [temporary_samplers], say),
    raises [KeyError]. *)
Theorem loss_after_partial_pass self temporary_samplers ss sampler :
  samplers self = Some ss ->
  zip ss temporary_samplers <> [] ->
  Forall completes (zip ss temporary_samplers) ->
  dict_get (target_name sampler) (weights self) = None ->
  (forall pair, pair ∈ zip ss temporary_samplers ->
                target_name pair.1 <> target_name sampler) ->
  _compute_loss_per_system
    (get_effective_sample_size self temporary_samplers).1 sampler
  = Raise KeyError.
Proof.
  intros Hss Hne Hall Hnone Hother.
  rewrite (get_effective_sample_size_completes _ _ _ _ ss) by done. cbn [fst].
  unfold _compute_loss_per_system.
  destruct (weighted_observable_cases compute_jcouplings
              {| samplers := Some ss;
                 weights := stored (weights self) (zip ss temporary_samplers) |}
              (atomSubset sampler) (target_name sampler)
              (output_directory_path sampler)) as (_ & _ & Hkey).
  rewrite Hkey; [done | |].
  - cbn [weights]. by apply stored_nonempty.
  - cbn [weights]. by rewrite stored_get_other.
Qed.

End LossLaws.

Section LossInputs.

Context {positions : Type}.
Variables experiment_yml experiment_yml' : string -> ExperimentRecord.
Variables compute_jcouplings compute_jcouplings' :
  string -> string -> option (list R) -> PredictedObservable.

Implicit Types (self : @SetupSamplerReweight positions).

(** X17.  Writing the default 0.5 into every measurement whose error is
    missing in the experiment file changes no loss. *)
Theorem loss_default_error_explicit self sampler :
  (forall path, experiment_yml' path = with_default_error (experiment_yml path)) ->
  _compute_loss_per_system experiment_yml' compute_jcouplings self sampler
  = _compute_loss_per_system experiment_yml compute_jcouplings self sampler.
Proof.
  intros Hyml. unfold _compute_loss_per_system, _get_experiment_data.
  rewrite Hyml.
  destruct (_compute_weighted_observable _ _ _ _ _) as [pred|?];
    cbn [mbind result_bind]; [|done].
  by rewrite !loss_of_spec, used_measurements_with_default.
Qed.

(** X18.  The loss reads the prediction only at the positions and keys of
    the used measurements: two predictors that agree there give the same
    loss, whatever else they predict. *)
Theorem loss_reads_used_predictions self sampler :
  (forall weights u,
     u ∈ used_measurements
           (_get_experiment_data experiment_yml (target_class sampler)
              (target_name sampler)) ->
     pred_at (compute_jcouplings' (atomSubset sampler)
                (output_directory_path sampler) weights) u.1.1.1 u.1.1.2
     = pred_at (compute_jcouplings (atomSubset sampler)
                  (output_directory_path sampler) weights) u.1.1.1 u.1.1.2) ->
  _compute_loss_per_system experiment_yml compute_jcouplings' self sampler
  = _compute_loss_per_system experiment_yml compute_jcouplings self sampler.
Proof.
  intros Hagree. unfold _compute_loss_per_system, _compute_weighted_observable.
  assert (forall weights,
            loss_of (_get_experiment_data experiment_yml (target_class sampler)
                       (target_name sampler))
              (compute_jcouplings' (atomSubset sampler)
                 (output_directory_path sampler) weights)
            = loss_of (_get_experiment_data experiment_yml (target_class sampler)
                         (target_name sampler))
                (compute_jcouplings (atomSubset sampler)
                   (output_directory_path sampler) weights)) as Hloss.
  { intros weights. rewrite !loss_of_spec.
    rewrite (mapM_result_ext_in _ (contribution (compute_jcouplings (atomSubset sampler)
                   (output_directory_path sampler) weights))); [done|].
    intros [[[i key] v] e] Hu. unfold contribution.
    specialize (Hagree weights _ Hu). cbn [fst snd] in Hagree.
    by rewrite Hagree. }
  destruct (weights self) as [|kv w]; cbn [mbind result_bind]; [apply Hloss|].
  destruct (dict_get _ _); cbn [mbind result_bind]; [apply Hloss | done].
Qed.

(** X19.  Reordering the measurements inside the structural units of the
    experiment file, the units staying in place, does not change a loss
    that is computed without an exception. *)
Theorem loss_order_within_unit self sampler loss :
  (forall path,
     Forall2 (fun unit unit' => unit.2 ≡ₚ unit'.2)
             (experiment_yml path) (experiment_yml' path)) ->
  _compute_loss_per_system experiment_yml compute_jcouplings self sampler = Ok loss ->
  _compute_loss_per_system experiment_yml' compute_jcouplings self sampler = Ok loss.
Proof.
  intros Hperm. unfold _compute_loss_per_system, _get_experiment_data.
  destruct (_compute_weighted_observable _ _ _ _ _) as [pred|?];
    cbn [mbind result_bind]; [|done].
  rewrite !loss_of_spec.
  destruct (mapM (contribution pred) (used_measurements (experiment_yml _)))
    as [terms|?] eqn:Hterms; cbn [mbind result_bind]; [|done].
  intros [= <-].
  destruct (mapM_result_Permutation _ _ _ _
              (used_measurements_Permutation _ _ (Hperm _)) Hterms)
    as (terms' & -> & Hp).
  cbn [mbind result_bind]. f_equal. symmetry. by apply torch_mean_Permutation.
Qed.

End LossInputs.

(** * The further properties on concrete sessions *)

Lemma ex_loss_value (w : list (string * WeightRecord)) :
  w = [] ->
  _compute_loss_per_system (fun _ => ex_exp) (fun _ _ _ => ex_pred)
    {| samplers := Some [ex_A]; weights := w |} ex_A
  = Ok (TVal 0.4).
Proof.
  intros ->. unfold _compute_loss_per_system. cbn [mbind result_bind
    _compute_weighted_observable weights].
  rewrite loss_of_spec.
  rewrite (mapM_result_Forall2 _ _
             [(0.8 - 1) ^ 2 / (0.2 ^ 2 + 0.1 ^ 2); (2 - 2) ^ 2 / (0.5 ^ 2 + 0 ^ 2)]).
  - cbn [mbind result_bind torch_mean]. do 2 f_equal.
    unfold np_sum, foldr, length, INR. lra.
  - change (used_measurements (_get_experiment_data (fun _ => ex_exp)
              (target_class ex_A) (target_name ex_A)))
      with [(0%nat, "1H5P"%string, 1, 0.2); (0%nat, "2H5P"%string, 2, 0.5)].
    repeat constructor; apply contributes_contribution.
    + exists {| avg := 0.8; std := 0.1 |}.
      split; [reflexivity|]. split; [cbn [std]; lra | reflexivity].
    + exists {| avg := 2; std := 0 |}.
      split; [reflexivity|]. split; [cbn [std]; lra | reflexivity].
Qed.

Lemma ex_names_NoDup :
  NoDup (map (fun pair : @Sampler nat * @Sampler nat => target_name pair.1)
             [(ex_A, ex_A_const); (ex_B, ex_B)]).
Proof.
  cbn. apply NoDup_cons. split; [|apply NoDup_singleton].
  intros Hin. apply list_elem_of_singleton in Hin. discriminate.
Qed.







Lemma ess_nan_first_witness :
  (get_effective_sample_size 1 ex_load_A_empty
     {| samplers := Some [ex_A; ex_B]; weights := [] |} [ex_A'; ex_B]).2
  = Ok NaN.
Proof.
  apply (ess_nan_first 1 ex_load_A_empty
           {| samplers := Some [ex_A; ex_B]; weights := [] |}
           [ex_A'; ex_B] [ex_A; ex_B] ex_A ex_A' [(ex_B, ex_B)]).
  - reflexivity.
  - reflexivity.
  - reflexivity.
  - repeat constructor; cbn; lra.
  - reflexivity.
  - intros pair Hin. apply list_elem_of_singleton in Hin. by subst pair.
Defined.

Lemma ex_keys_NoDup : NoDup (dict_keys [("B"%string, ex_record_B)]).
Proof. apply NoDup_singleton. Qed.

Lemma ess_keys_invariant_witness :
  let self := {| samplers := Some [ex_A]; weights := [("B"%string, ex_record_B)] |} in
  let after := (get_effective_sample_size 1 (fun _ => ex_traj 1) self [ex_A']).1 in
  samplers after = samplers self
  /\ NoDup (dict_keys (weights after))
  /\ exists new, dict_keys (weights after) = dict_keys (weights self) ++ new.
Proof.
  apply (ess_keys_invariant 1 (fun _ => ex_traj 1)
           {| samplers := Some [ex_A]; weights := [("B"%string, ex_record_B)] |}
           [ex_A']).
  exact ex_keys_NoDup.
Defined.

Lemma ess_idempotent_witness :
  let self := {| samplers := Some [ex_A]; weights := [("B"%string, ex_record_B)] |} in
  get_effective_sample_size 1 (fun _ => ex_traj 1)
    (get_effective_sample_size 1 (fun _ => ex_traj 1) self [ex_A']).1 [ex_A']
  = get_effective_sample_size 1 (fun _ => ex_traj 1) self [ex_A'].
Proof.
  apply (ess_idempotent 1 (fun _ => ex_traj 1)
           {| samplers := Some [ex_A]; weights := [("B"%string, ex_record_B)] |}
           [ex_A']).
  exact ex_keys_NoDup.
Defined.

Lemma ess_exceptions_witness :
  UnboundLocalError = AssertionError
  \/ UnboundLocalError = ZeroDivisionError
  \/ (UnboundLocalError = UnboundLocalError
      /\ exists ss, samplers {| samplers := Some [ex_A]; weights := [] |} = Some ss
                    /\ (ss = [] \/ @nil (@Sampler nat) = [])).
Proof.
  apply (ess_exceptions 1 (fun _ => ex_traj 1)
           {| samplers := Some [ex_A]; weights := [] |} [] UnboundLocalError).
  reflexivity.
Defined.

Lemma compute_loss_fail_fast_witness :
  compute_loss (fun _ => ex_exp_skipped) (fun _ _ _ => ex_pred)
    {| samplers := Some [ex_A; ex_B];
       weights := [("A"%string, ex_record_B)] |}
  = Raise KeyError.
Proof.
  apply (compute_loss_fail_fast (fun _ => ex_exp_skipped) (fun _ _ _ => ex_pred)
           {| samplers := Some [ex_A; ex_B];
              weights := [("A"%string, ex_record_B)] |}
           [ex_A] ex_B []).
  - reflexivity.
  - constructor; [|constructor]. exists TNaN. reflexivity.
  - reflexivity.
Defined.

Lemma loss_nonneg_witness : 0 <= 0.4.
Proof.
  apply (loss_nonneg (fun _ => ex_exp) (fun _ _ _ => ex_pred)
           {| samplers := Some [ex_A]; weights := [] |} ex_A 0.4).
  by apply ex_loss_value.
Defined.

Lemma loss_missing_prediction_witness :
  _compute_loss_per_system (fun _ => ex_exp) (fun _ _ _ => [])
    {| samplers := Some [ex_A]; weights := [] |} ex_A
  = Raise IndexError
  /\ _compute_loss_per_system (fun _ => ex_exp)
       (fun _ _ _ => [("resi_1"%string, ∅)])
       {| samplers := Some [ex_A]; weights := [] |} ex_A
     = Raise KeyError.
Proof.
  split.
  - apply (loss_missing_prediction (fun _ => ex_exp) (fun _ _ _ => [])
             {| samplers := Some [ex_A]; weights := [] |} ex_A []
             [] 0%nat "1H5P"%string 1 0.2 [(0%nat, "2H5P"%string, 2, 0.5)]).
    + reflexivity.
    + reflexivity.
    + constructor.
    + simpl. lia.
  - apply (proj2 (loss_missing_prediction (fun _ => ex_exp)
             (fun _ _ _ => [("resi_1"%string, ∅)])
             {| samplers := Some [ex_A]; weights := [] |} ex_A
             [("resi_1"%string, ∅)]
             [] 0%nat "1H5P"%string 1 0.2 [(0%nat, "2H5P"%string, 2, 0.5)]
             eq_refl eq_refl (Forall_nil_2 _)) ∅).
    + reflexivity.
    + reflexivity.
Defined.

Lemma observable_after_pass_witness :
  _compute_weighted_observable (fun _ _ _ => ex_pred)
    (get_effective_sample_size 1 (fun _ => ex_traj 2)
       {| samplers := Some [ex_A; ex_B]; weights := [] |} [ex_A_const; ex_B]).1
    (atomSubset ex_A) (target_name ex_A) (output_directory_path ex_A)
  = Ok ex_pred.
Proof.
  apply (observable_after_pass 1 (fun _ => ex_traj 2) (fun _ _ _ => ex_pred)
           {| samplers := Some [ex_A; ex_B]; weights := [] |}
           [ex_A_const; ex_B] [ex_A; ex_B] ex_A ex_A_const).
  - reflexivity.
  - repeat constructor; cbn; lra.
  - exact ex_names_NoDup.
  - by left.
Defined.

Lemma loss_after_partial_pass_witness :
  _compute_loss_per_system (fun _ => ex_exp) (fun _ _ _ => ex_pred)
    (get_effective_sample_size 1 (fun _ => ex_traj 2)
       {| samplers := Some [ex_A; ex_B]; weights := [] |} [ex_A']).1 ex_B
  = Raise KeyError.
Proof.
  apply (loss_after_partial_pass 1 (fun _ => ex_traj 2)
           (fun _ => ex_exp) (fun _ _ _ => ex_pred)
           {| samplers := Some [ex_A; ex_B]; weights := [] |}
           [ex_A'] [ex_A; ex_B] ex_B).
  - reflexivity.
  - discriminate.
  - repeat constructor; cbn; lra.
  - reflexivity.
  - intros pair Hin. apply list_elem_of_singleton in Hin. by subst pair.
Defined.

Lemma loss_default_error_explicit_witness :
  _compute_loss_per_system (fun _ => with_default_error ex_exp)
    (fun _ _ _ => ex_pred) {| samplers := Some [ex_A]; weights := [] |} ex_A
  = _compute_loss_per_system (fun _ => ex_exp)
      (fun _ _ _ => ex_pred) {| samplers := Some [ex_A]; weights := [] |} ex_A.
Proof.
  apply (loss_default_error_explicit (fun _ => ex_exp)
           (fun _ => with_default_error ex_exp) (fun _ _ _ => ex_pred)).
  reflexivity.
Defined.

Lemma loss_reads_used_predictions_witness :
  _compute_loss_per_system (fun _ => ex_exp) (fun _ _ _ => ex_pred_more)
    {| samplers := Some [ex_A]; weights := [] |} ex_A
  = _compute_loss_per_system (fun _ => ex_exp) (fun _ _ _ => ex_pred)
      {| samplers := Some [ex_A]; weights := [] |} ex_A.
Proof.
  apply (loss_reads_used_predictions (fun _ => ex_exp)
           (fun _ _ _ => ex_pred) (fun _ _ _ => ex_pred_more)).
  intros w u.
  change (used_measurements (_get_experiment_data (fun _ => ex_exp)
            (target_class ex_A) (target_name ex_A)))
    with [(0%nat, "1H5P"%string, 1, 0.2); (0%nat, "2H5P"%string, 2, 0.5)].
  intros Hu. apply elem_of_cons in Hu as [->|Hu]; [reflexivity|].
  apply list_elem_of_singleton in Hu. subst u. reflexivity.
Defined.

Lemma loss_order_within_unit_witness :
  _compute_loss_per_system (fun _ => ex_exp_swapped) (fun _ _ _ => ex_pred)
    {| samplers := Some [ex_A]; weights := [] |} ex_A
  = Ok (TVal 0.4).
Proof.
  apply (loss_order_within_unit (fun _ => ex_exp) (fun _ => ex_exp_swapped)
           (fun _ _ _ => ex_pred)).
  - intros _. constructor; [|constructor]. apply perm_swap.
  - by apply ex_loss_value.
Defined.
